(** * Array tools of PropertyTopomesh: a shallow embedding

    The module [array_tools.py] holds four helpers over numpy arrays:
    [array_unique], [where_list], [array_difference] and
    [weighted_percentile].  Each one is a few lines of Python that chain
    numpy / scipy primitives.  The primitives are written out below as
    executable functions, the four helpers are then transcribed line by line
    on top of them.

    Conventions.
    - A 1-D array is a [list]; a 2-D array compared by rows is a list of rows.
    - An N-D array is a [shape] with row-major [data].
    - Integer elements are [Z] (dtype int64, two's complement, little endian).
    - Floating point elements are idealised as exact rationals [Q].
    - A Python exception is a value [Raise e] of the [result] type. *)

From Stdlib Require Import ZArith QArith Qround Lia Lqa.
From stdpp Require Import base list sorting gmap.

(** ** Python exceptions as results *)

Inductive exn : Set :=
| AssertionError
| IndexError
| ValueError
| TypeError.

Inductive result (A : Type) : Type :=
| Ok (a : A)
| Raise (e : exn).
Arguments Ok {A} a.
Arguments Raise {A} e.

#[global] Instance result_ret : MRet result := @Ok.

#[global] Instance result_bind : MBind result := fun A B k m =>
  match m with
  | Ok a => k a
  | Raise e => Raise e
  end.

(** ** Integer-array indexing: [a[idx]] with [idx] an array of indices.
    numpy raises IndexError as soon as one index is out of bounds. *)

Definition getitem {A} (a : list A) (i : nat) : result A :=
  match a !! i with
  | Some x => Ok x
  | None => Raise IndexError
  end.

Fixpoint take_idx {A} (a : list A) (idx : list nat) : result (list A) :=
  match idx with
  | [] => Ok []
  | i :: idx' =>
      x ← getitem a i;
      xs ← take_idx a idx';
      Ok (x :: xs)
  end.

(** Boolean-mask indexing: [a[mask]]. *)
Definition select {A} (a : list A) (mask : list bool) : list A :=
  (filter (fun p => p.2 = true) (zip a mask)).*1.

(** ** Stable argsort.

    [insert_stable] puts an entry in front of the first entry whose key is
    not smaller; entries are inserted from the last to the first, so entries
    with equal keys stay in index order. *)

Section argsort.
Context {K : Type} (leb : K → K → bool).

Fixpoint insert_stable (x : K * nat) (l : list (K * nat)) : list (K * nat) :=
  match l with
  | [] => [x]
  | y :: l' => if leb x.1 y.1 then x :: l else y :: insert_stable x l'
  end.

Fixpoint sort_stable (l : list (K * nat)) : list (K * nat) :=
  match l with
  | [] => []
  | x :: l' => insert_stable x (sort_stable l')
  end.

Definition enumerate (keys : list K) : list (K * nat) :=
  zip keys (seq 0 (length keys)).

Definition argsort (keys : list K) : list nat :=
  (sort_stable (enumerate keys)).*2.
End argsort.

(** ** array_unique *)

(** One int64 element as its 8 bytes in memory order (little endian). *)
Definition itemsize : nat := 8.

Definition int64_bytes (x : Z) : list Z :=
  (fun i => Z.land (Z.shiftr x (8 * Z.of_nat i)) 255) <$> seq 0 itemsize.

Definition in_int64 (x : Z) : Prop := (- 2 ^ 63 ≤ x < 2 ^ 63)%Z.

(** [np.ascontiguousarray(array).view(np.dtype((np.void, itemsize * shape[1])))]:
    every row becomes one opaque item, the bytes of its elements in order. *)
Definition void_view (array : list (list Z)) : list (list Z) :=
  (fun row => row ≫= int64_bytes) <$> array.

(** Comparison of two void items: bytewise, as unsigned bytes (memcmp). *)
Fixpoint memcmp (a b : list Z) : comparison :=
  match a, b with
  | [], [] => Eq
  | [], _ :: _ => Lt
  | _ :: _, [] => Gt
  | x :: a', y :: b' =>
      match (x ?= y)%Z with
      | Eq => memcmp a' b'
      | c => c
      end
  end.

Definition void_leb (a b : list Z) : bool :=
  match memcmp a b with Gt => false | _ => true end.

Definition void_neqb (a b : list Z) : bool :=
  match memcmp a b with Eq => false | _ => true end.

(** [mask[:1] = True; mask[1:] = aux[1:] != aux[:-1]] *)
Fixpoint mask_from (prev : list Z) (aux : list (list Z)) : list bool :=
  match aux with
  | [] => []
  | k :: aux' => void_neqb k prev :: mask_from k aux'
  end.

Definition unique_mask (aux : list (list Z)) : list bool :=
  match aux with
  | [] => []
  | k :: aux' => true :: mask_from k aux'
  end.

(** [np.unique(ar, return_index=True)]: a stable (merge) argsort, then the
    first entry of every run of equal items.  Returns the pair
    [(aux[mask], perm[mask])]. *)
Definition np_unique_index (ar : list (list Z)) : result (list (list Z) * list nat) :=
  let perm := argsort void_leb ar in
  aux ← take_idx ar perm;
  let mask := unique_mask aux in
  Ok (select aux mask, select perm mask).

(** What [array_unique] hands back: the array alone, or the pair. *)
Inductive unique_result : Type :=
| Rows (rows : list (list Z))
| RowsIndex (rows : list (list Z)) (index : list nat).

Definition array_unique (array : list (list Z)) (return_index : bool)
  : result unique_result :=
  '(_, unique_rows) ← np_unique_index (void_view array);
  if return_index then
    rows ← take_idx array unique_rows;
    Ok (RowsIndex rows unique_rows)
  else
    rows ← take_idx array unique_rows;
    Ok (Rows rows).

(** A 2-D int64 array: every row has the same, non-zero, number of columns
    (the void dtype of the view needs a non-zero size) and every element fits
    in 64 bits. *)
Definition wf_array2d (array : list (list Z)) : Prop :=
  ∃ ncols : nat, 0 < ncols ∧
    Forall (fun row => length row = ncols ∧ Forall in_int64 row) array.

Definition example_a : list (list Z) :=
  [[0; 1; 2; 3; 4]; [0; 1; 2; 3; 4]; [0; 1; 2; 3; 4];
   [1; 2; 3; 4; 5]; [1; 2; 3; 4; 5]]%Z.

(** ** where_list *)

(** An N-D array: its shape and its elements in row-major (C) order. *)
Record ndarray (A : Type) : Type := NdArray { shape : list nat; data : list A }.
Arguments NdArray {A} shape data.
Arguments shape {A} _.
Arguments data {A} _.

Definition size_of (shp : list nat) : nat := foldr Nat.mul 1 shp.

(** At least one axis, and as many elements as the shape says. *)
Definition wf_ndarray {A} (a : ndarray A) : Prop :=
  shape a ≠ [] ∧ length (data a) = size_of (shape a).

(** Flat offset of a coordinate vector, and back. *)
Fixpoint ravel_multi_index (coords shp : list nat) : nat :=
  match coords, shp with
  | c :: coords', _ :: shp' => c * size_of shp' + ravel_multi_index coords' shp'
  | _, _ => 0
  end.

Fixpoint unravel_index (shp : list nat) (k : nat) : list nat :=
  match shp with
  | [] => []
  | _ :: shp' => k / size_of shp' :: unravel_index shp' (k `mod` size_of shp')
  end.



(** [np.ones_like(values)] *)
Definition np_ones_like (values : list Z) : list Z := (fun _ => 1%Z) <$> values.

(** [scipy.ndimage.sum(input, labels, index)]: for every element [i] of
    [index], the sum of the elements of [input] whose label equals [i].  The
    result has the shape of [index]. *)
Definition label_sum (input labels : list Z) (i : Z) : Z :=
  foldr Z.add 0%Z (filter (fun p => p.2 = i) (zip input labels)).*1.

Definition nd_sum (input labels : list Z) (index : ndarray Z) : ndarray Z :=
  NdArray (shape index) (label_sum input labels <$> data index).

(** [np.where(cond)] with one argument is [np.nonzero]: one index array per
    axis, the hits listed in row-major order. *)
Definition flatnonzero (cond : list bool) : list nat :=
  select (seq 0 (length cond)) cond.

Definition np_where (cond : ndarray bool) : list (list nat) :=
  let hits := unravel_index (shape cond) <$> flatnonzero (data cond) in
  (fun axis => (fun c => default 0 (c !! axis)) <$> hits)
    <$> seq 0 (length (shape cond)).

Definition where_list (array : ndarray Z) (values : list Z) : list (list nat) :=
  let mask := nd_sum (np_ones_like values) values array in
  np_where (NdArray (shape mask) ((fun m => bool_decide (0 < m)%Z) <$> data mask)).

(** The [i]-th returned coordinate: the [i]-th entry of every index array. *)
Definition coordinate (coords : list (list nat)) (i : nat) : option (list nat) :=
  mapM (fun arr : list nat => arr !! i) coords.

Definition example_where : ndarray Z :=
  NdArray [4; 5]
    [0; 1; 2; 3; 4;  0; 1; 2; 3; 4;  1; 2; 3; 4; 5;  1; 2; 3; 4; 5]%Z.

(** ** array_difference *)

(** The arrays handed to [array_difference], and what iterating over them
    yields: the scalars of a 1-D array, or the rows (themselves arrays) of a
    2-D array. *)
Inductive pyarray : Type :=
| Array1 (elems : list Z)
| Array2 (rows : list (list Z)).

Inductive pyobj : Type :=
| Scalar (x : Z)
| NdRow (row : list Z).

Definition iter (a : pyarray) : list pyobj :=
  match a with
  | Array1 elems => Scalar <$> elems
  | Array2 rows => NdRow <$> rows
  end.

(** [hash(o)]: a numpy scalar hashes as its value, an array is unhashable. *)
Definition py_hash (o : pyobj) : result Z :=
  match o with
  | Scalar x => Ok x
  | NdRow _ => Raise TypeError
  end.

(** [set(iterable)] *)
Fixpoint py_set (items : list pyobj) : result (gset Z) :=
  match items with
  | [] => Ok ∅
  | o :: items' =>
      x ← py_hash o;
      s ← py_set items';
      Ok ({[x]} ∪ s)
  end.

Definition array_difference (array subarray : pyarray) : result (list Z) :=
  a ← py_set (iter array);
  b ← py_set (iter subarray);
  Ok (elements (a ∖ b)).

Definition example_diff_a : pyarray :=
  Array2 [[0; 1; 2; 3; 4]; [0; 1; 2; 3; 4]; [1; 2; 3; 4; 5]; [1; 2; 3; 4; 5]]%Z.
Definition example_diff_b : pyarray := Array1 [0; 1; 2; 3; 4]%Z.

(** ** weighted_percentile *)

Definition np_ones (n : nat) : list Q := replicate n 1%Q.

(** [np.argsort(values)]: the indices that put [values] in ascending order.
    Among equal values the original order is kept, which is what numpy's
    default sort does on short arrays (it sorts runs of at most 16 elements
    by insertion). *)
Definition np_argsort (values : list Q) : list nat := argsort Qle_bool values.

Definition np_sort (values : list Q) : list Q :=
  (sort_stable Qle_bool (enumerate values)).*1.

Fixpoint cumsum_from (acc : Q) (w : list Q) : list Q :=
  match w with
  | [] => []
  | x :: w' => (acc + x)%Q :: cumsum_from (acc + x)%Q w'
  end.

Definition np_cumsum (w : list Q) : list Q := cumsum_from 0%Q w.

Definition np_sum (w : list Q) : Q := foldr Qplus 0%Q w.

(** [np.interp(x, xp, fp)] at one point [x], with [left = fp[0]] and
    [right = fp[-1]]: [right] above the last sample point, [left] below the
    first one, and in between the value found by [interp_search].
    [interp_search x x0 f0 rest] walks the sample points from [(x0, f0)],
    which satisfies [x0 <= x], to the last point whose abscissa is [<= x]:
    for non-decreasing [xp] (the domain numpy documents) that is the index
    every search finds.  On the last point, or on a point with [xp[j] == x],
    the value is [fp[j]]; otherwise it is [slope * (x - xp[j]) + fp[j]].
    With a single sample point all three cases give [fp[0]].
    numpy raises ValueError on empty sample points and on [xp], [fp] of
    different lengths. *)
Fixpoint interp_search (x x0 f0 : Q) (rest : list (Q * Q)) : Q :=
  match rest with
  | [] => f0
  | (x1, f1) :: rest' =>
      if Qle_bool x1 x then interp_search x x1 f1 rest'
      else if Qeq_bool x0 x then f0
      else (((f1 - f0) / (x1 - x0)) * (x - x0) + f0)%Q
  end.

Definition interp1 (xp fp : list Q) (x : Q) : Q :=
  match zip xp fp with
  | [] => 0%Q
  | (x0, f0) :: rest =>
      let '(xn, fn) := List.last rest (x0, f0) in
      if negb (Qle_bool x xn) then fn
      else if negb (Qle_bool x0 x) then f0
      else interp_search x x0 f0 rest
  end.

Definition np_interp (x xp fp : list Q) : result (list Q) :=
  if bool_decide (length xp = 0) then Raise ValueError
  else if bool_decide (length fp ≠ length xp) then Raise ValueError
  else Ok (interp1 xp fp <$> x).

Definition weighted_ranks (sample_weight : list Q) : list Q :=
  zip_with (fun c w => (100 * (c - (1 # 2) * w) / np_sum sample_weight)%Q)
    (np_cumsum sample_weight) sample_weight.

(** [np.all(percentiles >= 0) and np.all(percentiles <= 100)] *)
Definition percentiles_ok (percentiles : list Q) : bool :=
  forallb (fun p => Qle_bool 0 p) percentiles
  && forallb (fun p => Qle_bool p 100) percentiles.

Definition weighted_percentile (values percentiles : list Q)
    (sample_weight : option (list Q)) (values_sorted : bool) : result (list Q) :=
  let sample_weight := default (np_ones (length values)) sample_weight in
  if negb (percentiles_ok percentiles)
  then Raise AssertionError
  else
    '(values, sample_weight) ←
      (if negb values_sorted then
         let sorter := np_argsort values in
         values' ← take_idx values sorter;
         sample_weight' ← take_idx sample_weight sorter;
         Ok (values', sample_weight')
       else Ok (values, sample_weight));
    let weighted_percentiles := weighted_ranks sample_weight in
    np_interp percentiles weighted_percentiles values.

(** Weights for which the ranks are non-decreasing, as [np.interp] requires
    of its sample points: none given, or as many as the values, none
    negative, with a positive total. *)
Definition weights_ok (values : list Q) (sample_weight : option (list Q)) : Prop :=
  match sample_weight with
  | None => True
  | Some w => length w = length values ∧ Forall (Qle 0) w ∧ (0 < np_sum w)%Q
  end.


Definition example_values : list Q := [1; 2; 3; 4; 5]%Q.
Definition example_percentiles : list Q := [0; 50; 100]%Q.
Definition example_weights : list Q := [1; 2; 1; 2; 1]%Q.
Definition example_shuffled : list Q := [5; 3; 1; 4; 2]%Q.

(** The unweighted percentile of numpy ([np.percentile(values, p, method)]):
    sort, take the virtual index
    [n * q + (alpha + q * (1 - alpha - beta)) - 1] for [q = p / 100], clip it
    to [0, n - 1], and interpolate linearly between its two neighbours. *)
Definition Qclip (v lo hi : Q) : Q :=
  if Qle_bool v lo then lo else if Qle_bool hi v then hi else v.

Definition virtual_index (alpha beta : Q) (n : nat) (q : Q) : Q :=
  (inject_Z (Z.of_nat n) * q + (alpha + q * (1 - alpha - beta)) - 1)%Q.

Definition lerp_at (s : list Q) (v : Q) : Q :=
  let j := Z.to_nat (Qfloor v) in
  let lo := nth j s 0%Q in
  let hi := nth (Nat.min (j + 1) (length s - 1)) s 0%Q in
  (lo + (v - inject_Z (Z.of_nat j)) * (hi - lo))%Q.

Definition percentile_method (alpha beta : Q) (values : list Q) (p : Q) : Q :=
  let s := np_sort values in
  let n := length s in
  let v := virtual_index alpha beta n (p / 100) in
  lerp_at s (Qclip v 0 (inject_Z (Z.of_nat n - 1))).

(** The standard percentile: numpy's default method ([linear], type 7). *)
Definition standard_percentile : list Q → Q → Q := percentile_method 1 1.

(** The percentile with mid-point plotting positions ([hazen], type 5). *)
Definition hazen_percentile : list Q → Q → Q := percentile_method (1 # 2) (1 # 2).

(** * Properties *)

(** ** Results and indexing *)

Lemma take_idx_Ok {A} (a : list A) (idx : list nat) (xs : list A) :
  take_idx a idx = Ok xs ↔ Forall2 (fun i x => a !! i = Some x) idx xs.
Proof.
  revert xs. induction idx as [|i idx IH]; intros xs; simpl.
  - split; [intros [= <-]; constructor | by inversion 1].
  - unfold getitem. split.
    + destruct (a !! i) as [x|] eqn:Hi; simpl; [|done].
      destruct (take_idx a idx) as [xs'|] eqn:Hidx; simpl; [|done].
      intros [= <-]. constructor; [done | by apply IH].
    + inversion 1 as [|? x ? xs' Hi Hrest]; subst.
      rewrite Hi. simpl. apply IH in Hrest. by rewrite Hrest.
Qed.

Lemma take_idx_elem_of {A} (a : list A) idx xs x :
  take_idx a idx = Ok xs → x ∈ xs → x ∈ a.
Proof.
  rewrite take_idx_Ok. induction 1 as [|i y idx xs Hi _ IH].
  - by intros ?%elem_of_nil.
  - intros [->|?]%elem_of_cons; [by eapply list_elem_of_lookup_2 | auto].
Qed.

Lemma select_cons {A} (x : A) a (b : bool) m :
  select (x :: a) (b :: m) = if b then x :: select a m else select a m.
Proof.
  unfold select. simpl. rewrite filter_cons. simpl.
  destruct b; case_decide; done.
Qed.

Lemma select_nil_r {A} (a : list A) : select a [] = [].
Proof. by destruct a. Qed.

Lemma select_Forall2 {A B} (R : A → B → Prop) a b m :
  Forall2 R a b → Forall2 R (select a m) (select b m).
Proof.
  intros H. revert m. induction H as [|x y a b Hxy _ IH]; intros m.
  - constructor.
  - destruct m as [|c m]; [rewrite !select_nil_r; constructor|].
    rewrite !select_cons. destruct c; [constructor|]; auto.
Qed.

Lemma select_length {A} (a : list A) m : length (select a m) ≤ length a.
Proof.
  revert m. induction a as [|x a IH]; intros m; [done|].
  destruct m as [|c m]; [rewrite select_nil_r; simpl; lia|].
  rewrite select_cons. specialize (IH m). destruct c; simpl; lia.
Qed.

Lemma select_fmap {A B} (f : A → B) (a : list A) m :
  select (f <$> a) m = f <$> select a m.
Proof.
  revert m. induction a as [|x a IH]; intros m; [done|].
  destruct m as [|c m]; [by rewrite fmap_cons, !select_nil_r|].
  rewrite fmap_cons, !select_cons, IH. by destruct c.
Qed.

Lemma select_elem_of {A} (a : list A) m x : x ∈ select a m → x ∈ a.
Proof.
  revert m. induction a as [|y a IH]; intros m.
  - by destruct m.
  - destruct m as [|c m]; [rewrite select_nil_r; by intros ?%elem_of_nil|].
    rewrite select_cons. destruct c.
    + intros [->|?]%elem_of_cons; [left | right; eauto].
    + right. eauto.
Qed.

Lemma take_idx_seq {A} (a : list A) : take_idx a (seq 0 (length a)) = Ok a.
Proof.
  apply take_idx_Ok, Forall2_same_length_lookup. split; [by rewrite length_seq|].
  intros i j x [-> _]%lookup_seq Hx. done.
Qed.

(** Indexing with a permutation of the indices permutes the result. *)
Lemma take_idx_Permutation {A} (a : list A) (idx idx' : list nat) xs' :
  idx ≡ₚ idx' → take_idx a idx' = Ok xs' →
  ∃ xs, take_idx a idx = Ok xs ∧ xs ≡ₚ xs'.
Proof.
  intros Hperm. revert xs'.
  induction Hperm as [|i l l' _ IH|i j l|l l' l'' _ IH1 _ IH2]; intros xs'.
  - intros [= <-]. by exists [].
  - rewrite take_idx_Ok. inversion 1 as [|? x ? xs1 Hi Hrest]; subst.
    apply take_idx_Ok in Hrest. destruct (IH _ Hrest) as (xs & Hxs & Hp).
    exists (x :: xs). split; [|by constructor].
    simpl. unfold getitem. rewrite Hi. simpl. by rewrite Hxs.
  - rewrite take_idx_Ok. inversion 1 as [|? x ? xs1 Hi Hrest]; subst.
    inversion Hrest as [|? y ? xs2 Hj Hrest']; subst.
    exists (y :: x :: xs2). split; [|apply Permutation_swap].
    apply take_idx_Ok. by repeat constructor.
  - intros H''. destruct (IH2 _ H'') as (xs1 & H' & Hp1).
    destruct (IH1 _ H') as (xs & H & Hp). exists xs. split; [done|].
    by rewrite Hp.
Qed.

(** ** The stable sort *)

Section argsort_facts.
Context {K : Type} (leb : K → K → bool).
Hypothesis leb_total : ∀ a b, leb a b = true ∨ leb b a = true.
Hypothesis leb_trans : ∀ a b c, leb a b = true → leb b c = true → leb a c = true.

Lemma insert_stable_perm x l : insert_stable leb x l ≡ₚ x :: l.
Proof using Type.
    induction l as [|y l IH]; simpl; [done|].
    destruct (leb x.1 y.1); [done|]. rewrite IH. apply Permutation_swap.
Qed.

Lemma sort_stable_perm l : sort_stable leb l ≡ₚ l.
Proof using Type.
    induction l as [|x l IH]; simpl; [done|].
    by rewrite insert_stable_perm, IH.
Qed.

Lemma insert_stable_sorted x l :
    StronglySorted (fun p q => leb p.1 q.1 = true) l →
  StronglySorted (fun p q => leb p.1 q.1 = true) (insert_stable leb x l).
Proof using leb_total leb_trans.
    induction 1 as [|y l Hl IH Hy]; simpl.
    - repeat constructor.
    - destruct (leb x.1 y.1) eqn:Hxy.
      + constructor; [by constructor|]. constructor; [done|].
        eapply Forall_impl; [exact Hy|]. intros z Hz. by eapply leb_trans.
      + constructor; [done|]. rewrite insert_stable_perm.
        constructor; [|done]. destruct (leb_total x.1 y.1); [congruence | done].
Qed.

Lemma sort_stable_sorted l :
  StronglySorted (fun p q => leb p.1 q.1 = true) (sort_stable leb l).
Proof using leb_total leb_trans.
    induction l; simpl; [constructor | by apply insert_stable_sorted].
Qed.

(** Stability: entries that compare equal both ways stay in index order,
    provided every entry is inserted in front of larger indices only. *)
Lemma insert_stable_stable x l :
  Forall (fun q => x.2 < q.2) l →
  StronglySorted (fun p q => leb p.1 q.1 = true ∧ (leb q.1 p.1 = true → p.2 < q.2)) l →
  StronglySorted (fun p q => leb p.1 q.1 = true ∧ (leb q.1 p.1 = true → p.2 < q.2))
    (insert_stable leb x l).
Proof using leb_total leb_trans.
  intros Hidx. induction 1 as [|y l Hl IH Hy]; simpl.
  - repeat constructor.
  - apply Forall_cons in Hidx as [Hxy_idx Hidx].
    destruct (leb x.1 y.1) eqn:Hxy.
    + constructor; [by constructor|]. constructor; [by split|].
      rewrite Forall_forall in Hy, Hidx |- *. intros z Hz.
      split; [|intros _; by apply Hidx].
      eapply leb_trans; [exact Hxy|]. by apply Hy.
    + constructor; [by apply IH|]. rewrite insert_stable_perm.
      constructor; [|done]. split; [|congruence].
      destruct (leb_total x.1 y.1); [congruence | done].
Qed.

Lemma sort_stable_stable (keys : list K) (n : nat) :
  StronglySorted (fun p q => leb p.1 q.1 = true ∧ (leb q.1 p.1 = true → p.2 < q.2))
    (sort_stable leb (zip keys (seq n (length keys)))).
Proof using leb_total leb_trans.
  revert n. induction keys as [|k keys IH]; intros n; simpl; [constructor|].
  apply insert_stable_stable; [|apply IH]. rewrite sort_stable_perm.
  apply Forall_forall. intros [k' i] Hin. simpl.
  apply elem_of_zip_r, elem_of_seq in Hin. lia.
Qed.

Lemma enumerate_elem_of (keys : list K) (k : K) (j : nat) :
  keys !! j = Some k → (k, j) ∈ enumerate keys.
Proof using Type.
  intros Hj. apply list_elem_of_lookup. exists j. unfold enumerate.
  rewrite lookup_zip_with, Hj. simpl.
  assert (seq 0 (length keys) !! j = Some j) as ->; [|done].
  apply lookup_seq. split; [done|]. by eapply lookup_lt_Some.
Qed.

Lemma enumerate_lookup_from (keys : list K) (n : nat) :
    Forall (fun p : K * nat => n ≤ p.2 ∧ keys !! (p.2 - n) = Some p.1)
      (zip keys (seq n (length keys))).
Proof using Type.
    revert n. induction keys as [|k keys IH]; intros n; simpl; [constructor|].
    constructor; simpl.
    - split; [lia|]. by replace (n - n) with 0 by lia.
    - eapply Forall_impl; [apply (IH (S n))|]. intros [k' i] [Hle Hi]; simpl in *.
      split; [lia|]. by replace (i - n) with (S (i - S n)) by lia.
Qed.

Lemma enumerate_lookup (keys : list K) :
    Forall (fun p : K * nat => keys !! p.2 = Some p.1) (enumerate keys).
Proof using Type.
    eapply Forall_impl; [apply (enumerate_lookup_from keys 0)|].
    intros [k i] [_ Hi]; simpl in *. by replace (i - 0) with i in Hi by lia.
Qed.

Lemma enumerate_fst (keys : list K) : (enumerate keys).*1 = keys.
Proof using Type. unfold enumerate. apply fst_zip. by rewrite length_seq. Qed.

Lemma enumerate_snd (keys : list K) : (enumerate keys).*2 = seq 0 (length keys).
Proof using Type. unfold enumerate. apply snd_zip. by rewrite length_seq. Qed.

Lemma argsort_perm (keys : list K) : argsort leb keys ≡ₚ seq 0 (length keys).
Proof using Type.
    unfold argsort. by rewrite sort_stable_perm, enumerate_snd.
Qed.

Lemma argsort_length (keys : list K) : length (argsort leb keys) = length keys.
Proof using Type. by rewrite argsort_perm, length_seq. Qed.

Lemma sorted_keys_perm (keys : list K) :
    (sort_stable leb (enumerate keys)).*1 ≡ₚ keys.
Proof using Type. by rewrite sort_stable_perm, enumerate_fst. Qed.

  (** [keys[argsort(keys)]] never fails and is the sorted array. *)
Lemma take_idx_argsort (keys : list K) :
    take_idx keys (argsort leb keys) = Ok (sort_stable leb (enumerate keys)).*1.
Proof using Type.
    apply take_idx_Ok. unfold argsort.
    assert (Forall (fun p : K * nat => keys !! p.2 = Some p.1)
              (sort_stable leb (enumerate keys))) as H.
    { rewrite sort_stable_perm. apply enumerate_lookup. }
    induction H as [|[k i] l Hi _ IH]; simpl; constructor; done.
Qed.

Lemma sorted_keys_sorted (keys : list K) :
    StronglySorted (fun a b => leb a b = true) (sort_stable leb (enumerate keys)).*1.
Proof using leb_total leb_trans.
    pose proof (sort_stable_sorted (enumerate keys)) as H.
    induction H as [|p l _ IH Hp]; simpl; constructor; [done|].
    apply Forall_fmap. exact Hp.
Qed.

End argsort_facts.

(** ** Bytewise comparison *)

Lemma memcmp_Eq a b : memcmp a b = Eq ↔ a = b.
Proof.
  revert b. induction a as [|x a IH]; intros [|y b]; simpl; try done.
  destruct (Z.compare_spec x y) as [->|?|?].
  - rewrite IH. split; congruence.
  - split; [done | intros [= ? ?]; lia].
  - split; [done | intros [= ? ?]; lia].
Qed.

Lemma memcmp_antisym a b : memcmp b a = CompOpp (memcmp a b).
Proof.
  revert b. induction a as [|x a IH]; intros [|y b]; simpl; try done.
  rewrite (Z.compare_antisym x y).
  destruct (x ?= y)%Z; simpl; auto.
Qed.

Lemma memcmp_Lt_trans a b c :
  memcmp a b = Lt → memcmp b c = Lt → memcmp a c = Lt.
Proof.
  revert b c. induction a as [|x a IH]; intros [|y b] [|z c]; simpl; try done.
  destruct (Z.compare_spec x y) as [->|Hxy|Hxy]; try done.
  - destruct (Z.compare_spec y z) as [->|Hyz|Hyz]; try done. apply IH.
  - destruct (Z.compare_spec y z) as [->|Hyz|Hyz]; try done.
    + intros _ _. destruct (Z.compare_spec x z); [lia | done | lia].
    + intros _ _. destruct (Z.compare_spec x z); [lia | done | lia].
Qed.

Lemma void_leb_spec a b : void_leb a b = true ↔ memcmp a b = Lt ∨ a = b.
Proof.
  unfold void_leb. rewrite <-memcmp_Eq. destruct (memcmp a b); naive_solver.
Qed.

Lemma void_neqb_spec a b : void_neqb a b = true ↔ a ≠ b.
Proof.
  unfold void_neqb. rewrite <-memcmp_Eq. destruct (memcmp a b); naive_solver.
Qed.

Lemma void_leb_total a b : void_leb a b = true ∨ void_leb b a = true.
Proof.
  unfold void_leb. rewrite (memcmp_antisym a b).
  destruct (memcmp a b); simpl; auto.
Qed.

Lemma void_leb_trans a b c :
  void_leb a b = true → void_leb b c = true → void_leb a c = true.
Proof.
  rewrite !void_leb_spec. intros [Hab| ->] [Hbc| ->]; eauto using memcmp_Lt_trans.
Qed.

Lemma void_leb_antisym a b :
  void_leb a b = true → void_leb b a = true → a = b.
Proof.
  rewrite !void_leb_spec. intros [Hab|?] [Hba|?]; try done.
  pose proof (memcmp_Lt_trans _ _ _ Hab Hba) as Haa.
  assert (memcmp a a = Eq) by by apply memcmp_Eq. congruence.
Qed.

(** ** One entry per run of equal items *)

Lemma select_mask_from prev aux :
  StronglySorted (fun a b => void_leb a b = true) (prev :: aux) →
  let out := select aux (mask_from prev aux) in
  StronglySorted (fun a b => memcmp a b = Lt) (prev :: out)
  ∧ ∀ k, k ∈ prev :: out ↔ k ∈ prev :: aux.
Proof.
  revert prev. induction aux as [|k aux IH]; intros prev Hs; simpl.
  - split; [repeat constructor | done].
  - rewrite select_cons.
    apply StronglySorted_inv in Hs as [Hs Hprev].
    apply Forall_cons in Hprev as [Hpk Hprev].
    destruct (IH k Hs) as [IHs IHe].
    destruct (void_neqb k prev) eqn:Hne.
    + apply void_neqb_spec in Hne. apply void_leb_spec in Hpk as [Hlt|?]; [|done].
      split.
      * constructor; [done|]. constructor; [done|].
        apply StronglySorted_inv in IHs as [_ IHs].
        eapply Forall_impl; [exact IHs|]. intros z Hz. by eapply memcmp_Lt_trans.
      * intros z. rewrite !(elem_of_cons _ z prev). rewrite IHe. done.
    + assert (k = prev) as ->.
      { destruct (decide (k = prev)) as [|Hn]; [done|].
        apply void_neqb_spec in Hn. congruence. }
      split; [done|]. intros z. rewrite IHe. set_solver.
Qed.

Lemma select_unique_mask aux :
  StronglySorted (fun a b => void_leb a b = true) aux →
  let out := select aux (unique_mask aux) in
  StronglySorted (fun a b => memcmp a b = Lt) out ∧ ∀ k, k ∈ out ↔ k ∈ aux.
Proof.
  destruct aux as [|k aux]; simpl.
  - intros _. split; [constructor | done].
  - intros Hs. rewrite select_cons. by apply select_mask_from.
Qed.

(** In a stably sorted list of (item, index) entries, the entry kept for a
    run of equal items has the least index of the run. *)
Lemma first_of_run_from (p : list Z * nat) (L : list (list Z * nat)) :
  StronglySorted
    (fun p q => void_leb p.1 q.1 = true ∧ (void_leb q.1 p.1 = true → p.2 < q.2))
    (p :: L) →
  ∀ q, q ∈ select L (mask_from p.1 L.*1) →
    q.1 ≠ p.1 ∧ ∀ q', q' ∈ p :: L → q'.1 = q.1 → q.2 ≤ q'.2.
Proof.
  revert p. induction L as [|y L IH]; intros p Hs q.
  - by intros ?%elem_of_nil.
  - rewrite fmap_cons. cbn [mask_from]. rewrite select_cons.
    apply StronglySorted_inv in Hs as [Hs Hp].
    apply Forall_cons in Hp as [[Hpy _] Hp].
    assert (∀ q, q ∈ select L (mask_from y.1 L.*1) →
              q.1 ≠ p.1 ∧ ∀ q', q' ∈ p :: y :: L → q'.1 = q.1 → q.2 ≤ q'.2) as Hrest.
    { intros q0 Hq0. destruct (IH y Hs q0 Hq0) as [Hne Hmin].
      assert (q0.1 ≠ p.1) as Hne'.
      { intros Heq. apply Hne.
        assert (q0 ∈ L) as Hin by by eapply select_elem_of.
        apply StronglySorted_inv in Hs as [_ Hy]. rewrite Forall_forall in Hy.
        destruct (Hy _ Hin) as [Hyq _]. rewrite Heq in Hyq |- *.
        by apply void_leb_antisym. }
      split; [done|]. intros q' [->|Hq']%elem_of_cons Hk; [congruence|].
      by apply Hmin. }
    destruct (void_neqb y.1 p.1) eqn:Hne; [|by apply Hrest].
    apply void_neqb_spec in Hne.
    intros [->|Hq]%elem_of_cons; [|by apply Hrest].
    split; [done|]. intros q' [->|[->|Hq']%elem_of_cons]%elem_of_cons Hk.
    + congruence.
    + done.
    + apply StronglySorted_inv in Hs as [_ Hy]. rewrite Forall_forall in Hy.
      destruct (Hy _ Hq') as [_ Hidx]. apply Nat.lt_le_incl, Hidx.
      rewrite Hk. apply void_leb_spec. by right.
Qed.

Lemma first_of_run (L : list (list Z * nat)) :
  StronglySorted
    (fun p q => void_leb p.1 q.1 = true ∧ (void_leb q.1 p.1 = true → p.2 < q.2)) L →
  ∀ q, q ∈ select L (unique_mask L.*1) →
    ∀ q', q' ∈ L → q'.1 = q.1 → q.2 ≤ q'.2.
Proof.
  destruct L as [|p L]; [by intros _ q ?%elem_of_nil|].
  intros Hs q. rewrite fmap_cons. cbn [unique_mask]. rewrite select_cons.
  intros [->|Hq]%elem_of_cons.
  - intros q' [->|Hq']%elem_of_cons Hk; [done|].
    apply StronglySorted_inv in Hs as [_ Hp]. rewrite Forall_forall in Hp.
    destruct (Hp _ Hq') as [_ Hidx]. apply Nat.lt_le_incl, Hidx.
    rewrite Hk. apply void_leb_spec. by right.
  - by apply (first_of_run_from p L Hs q Hq).
Qed.

Lemma strictly_sorted_NoDup (l : list (list Z)) :
  StronglySorted (fun a b => memcmp a b = Lt) l → NoDup l.
Proof.
  induction 1 as [|k l _ IH Hk]; constructor; [|done].
  intros Hin. rewrite Forall_forall in Hk. specialize (Hk _ Hin).
  assert (memcmp k k = Eq) by by apply memcmp_Eq. congruence.
Qed.

(** ** The byte image of a row determines the row *)

Lemma int64_bytes_length x : length (int64_bytes x) = itemsize.
Proof. unfold int64_bytes. by rewrite length_fmap, length_seq. Qed.

Lemma int64_bytes_testbit x y :
  int64_bytes x = int64_bytes y →
  ∀ n, (0 ≤ n < 64)%Z → Z.testbit x n = Z.testbit y n.
Proof.
  intros Heq n Hn.
  assert (∀ i : nat, i < itemsize →
    Z.land (Z.shiftr x (8 * Z.of_nat i)) 255 = Z.land (Z.shiftr y (8 * Z.of_nat i)) 255)
    as Hbyte.
  { intros i Hi.
    assert (seq 0 itemsize !! i = Some i) as Hseq by (apply lookup_seq; lia).
    assert (∀ z, int64_bytes z !! i
                 = Some (Z.land (Z.shiftr z (8 * Z.of_nat i)) 255)) as Hl.
    { intros z. unfold int64_bytes. by rewrite list_lookup_fmap, Hseq. }
    pose proof (Hl x) as Hlx. rewrite Heq, Hl in Hlx. congruence. }
  specialize (Hbyte (Z.to_nat (n / 8))).
  assert (0 ≤ n / 8 < 8)%Z as Hdiv.
  { split; [apply Z.div_pos; lia | apply Z.div_lt_upper_bound; lia]. }
  rewrite Z2Nat.id in Hbyte by lia.
  assert (Z.to_nat (n / 8) < itemsize) as Hlt by (unfold itemsize; lia).
  specialize (Hbyte Hlt).
  pose proof (f_equal (fun v => Z.testbit v (n `mod` 8)) Hbyte) as Hbit.
  simpl in Hbit.
  assert (0 ≤ n `mod` 8 < 8)%Z as Hmod by (apply Z.mod_pos_bound; lia).
  assert (Z.testbit 255 (n `mod` 8) = true) as H255.
  { change 255%Z with (Z.ones 8). apply Z.ones_spec_low. lia. }
  rewrite !Z.land_spec, H255, !andb_true_r in Hbit.
  rewrite !Z.shiftr_spec in Hbit by lia.
  replace (n `mod` 8 + 8 * (n / 8))%Z with n in Hbit; [done|].
  pose proof (Z.div_mod n 8). lia.
Qed.

Lemma int64_bytes_inj x y :
  in_int64 x → in_int64 y → int64_bytes x = int64_bytes y → x = y.
Proof.
  unfold in_int64. intros Hx Hy Heq.
  assert (x `mod` 2 ^ 64 = y `mod` 2 ^ 64)%Z as Hmod.
  { apply Z.bits_inj'. intros n Hn.
    destruct (decide (n < 64)%Z) as [Hlt|Hge].
    - rewrite !Z.mod_pow2_bits_low by lia. apply int64_bytes_testbit; [done | lia].
    - rewrite !Z.mod_pow2_bits_high by lia. done. }
  pose proof (Z.div_mod x (2 ^ 64)) as Hdx. pose proof (Z.div_mod y (2 ^ 64)) as Hdy.
  assert (x `div` 2 ^ 64 = y `div` 2 ^ 64 ∨ x `div` 2 ^ 64 ≠ y `div` 2 ^ 64)%Z
    as [Hq|Hq] by lia; lia.
Qed.

Lemma row_bytes_inj (r r' : list Z) :
  Forall in_int64 r → Forall in_int64 r' →
  r ≫= int64_bytes = r' ≫= int64_bytes → r = r'.
Proof.
  intros Hr. revert r'. induction Hr as [|x r Hx _ IH]; intros r' Hr' Heq.
  - destruct Hr' as [|y r' _ _]; [done|]. rewrite bind_cons in Heq.
    apply (f_equal length) in Heq. rewrite length_app, int64_bytes_length in Heq.
    simpl in Heq. unfold itemsize in Heq. lia.
  - destruct Hr' as [|y r' Hy Hr'].
    + rewrite bind_cons in Heq. apply (f_equal length) in Heq.
      rewrite length_app, int64_bytes_length in Heq. simpl in Heq.
      unfold itemsize in Heq. lia.
    + rewrite !bind_cons in Heq. apply app_inj_1 in Heq as [Hxy Hrest];
        [|by rewrite !int64_bytes_length].
      f_equal; [by apply int64_bytes_inj | by apply IH].
Qed.

(** ** array_unique *)

Lemma lookup_fmap_Forall2 {A B} (f : A → B) (a : list A) idx ks :
  Forall2 (fun i k => (f <$> a) !! i = Some k) idx ks →
  ∃ xs, Forall2 (fun i x => a !! i = Some x) idx xs ∧ f <$> xs = ks.
Proof.
  induction 1 as [|i k idx ks Hi _ (xs & Hxs & Hks)].
  - by exists [].
  - rewrite list_lookup_fmap in Hi.
    destruct (a !! i) as [x|] eqn:Hx; simpl in Hi; [|done].
    exists (x :: xs). split; [by constructor |]. rewrite fmap_cons. congruence.
Qed.

(** What the function computes, whatever [return_index] is: the chosen
    indices, the rows found there, sorted strictly by their byte images, and
    with the same byte images as the input. *)
Lemma array_unique_spec (array : list (list Z)) (return_index : bool) :
  ∃ idx rows,
    array_unique array return_index
      = Ok (if return_index then RowsIndex rows idx else Rows rows)
    ∧ Forall2 (fun i r => array !! i = Some r) idx rows
    ∧ StronglySorted (fun a b => memcmp a b = Lt) (void_view rows)
    ∧ (∀ k, k ∈ void_view rows ↔ k ∈ void_view array)
    ∧ length idx ≤ length array
    ∧ Forall (fun i => ∀ j k, void_view array !! i = Some k →
                         void_view array !! j = Some k → i ≤ j) idx.
Proof.
  unfold array_unique, np_unique_index.
  set (keys := void_view array).
  pose proof (take_idx_argsort void_leb keys) as Htake.
  set (aux := (sort_stable void_leb (enumerate keys)).*1) in *.
  rewrite Htake. simpl.
  set (mask := unique_mask aux).
  set (idx := select (argsort void_leb keys) mask).
  apply take_idx_Ok in Htake.
  pose proof (select_Forall2 _ _ _ mask Htake) as Hsel. fold idx in Hsel.
  destruct (lookup_fmap_Forall2 _ _ _ _ Hsel) as (rows & Hrows & Hkeys).
  pose proof (sorted_keys_sorted void_leb void_leb_total void_leb_trans keys) as Hs.
  fold aux in Hs. apply select_unique_mask in Hs as [Hsorted Helem].
  fold mask in Hsorted, Helem.
  exists idx, rows.
  assert (take_idx array idx = Ok rows) as Hidx by by apply take_idx_Ok.
  split; [|split; [|split; [|split; [|split]]]].
  - destruct return_index; rewrite Hidx; done.
  - done.
  - unfold void_view at 1. by rewrite Hkeys.
  - intros k. unfold void_view at 1. rewrite Hkeys, Helem.
    unfold aux. by rewrite sorted_keys_perm.
  - unfold idx. etrans; [apply select_length|].
    rewrite argsort_length. unfold keys, void_view. by rewrite length_fmap.
  - unfold idx, argsort. rewrite select_fmap. apply Forall_fmap, Forall_forall.
    intros q Hq j k Hi Hj. simpl.
    set (L := sort_stable void_leb (enumerate keys)) in *.
    assert (q ∈ L) as HqL by by eapply select_elem_of.
    assert (keys !! q.2 = Some q.1) as Hq1.
    { pose proof (enumerate_lookup keys) as Hall.
      rewrite <-(sort_stable_perm void_leb) in Hall. fold L in Hall.
      rewrite Forall_forall in Hall. by apply Hall. }
    assert ((k, j) ∈ L) as HjL.
    { unfold L. rewrite sort_stable_perm. by apply enumerate_elem_of. }
    apply (first_of_run L) with (q' := (k, j)); [|done|done|simpl; congruence].
    apply (sort_stable_stable void_leb void_leb_total void_leb_trans keys 0).
Qed.



Lemma wf_array2d_rows array r :
  wf_array2d array → r ∈ array → Forall in_int64 r.
Proof.
  intros (ncols & _ & Hall) Hin. rewrite Forall_forall in Hall.
  by apply Hall.
Qed.


Lemma example_a_wf : wf_array2d example_a.
Proof.
  exists 5. split; [lia|]. unfold example_a, in_int64.
  repeat (constructor; [split; [reflexivity | repeat (constructor; [lia|]); constructor]|]).
  constructor.
Qed.


(** The docstring example. *)
Example array_unique_docstring :
  array_unique example_a false
  = Ok (Rows [[0; 1; 2; 3; 4]; [1; 2; 3; 4; 5]]%Z).
Proof. reflexivity. Qed.



(** X1. With [return_index], every returned index is the first position of
    the input that holds the row found there. *)
Lemma array_unique_first_occurrence (array : list (list Z)) :
  ∃ out idx,
    array_unique array true = Ok (RowsIndex out idx)
    ∧ Forall2 (fun i r => array !! i = Some r
                          ∧ ∀ j, array !! j = Some r → i ≤ j) idx out.
Proof.
  destruct (array_unique_spec array true)
    as (idx & out & Hrun & Hidx & _ & _ & _ & Hfirst).
  exists out, idx. split; [done|]. clear Hrun.
  induction Hidx as [|i r idx out Hi _ IH]; [constructor|].
  apply Forall_cons in Hfirst as [Hmin Hfirst].
  constructor; [|by apply IH]. split; [done|]. intros j Hj.
  apply (Hmin j (r ≫= int64_bytes)); unfold void_view;
    rewrite list_lookup_fmap; [by rewrite Hi | by rewrite Hj].
Qed.

(** The order is the order of the bytes in memory, neither the order of
    appearance nor the numeric order. *)
Example array_unique_byte_order :
  array_unique [[256]; [1]; [-1]; [1]; [0]]%Z true
  = Ok (RowsIndex [[0]; [256]; [1]; [-1]]%Z [4; 0; 1; 2]).
Proof. reflexivity. Qed.

(** ** where_list *)

Lemma unravel_index_length shp k : length (unravel_index shp k) = length shp.
Proof. revert k. induction shp as [|d shp IH]; intros k; simpl; auto. Qed.


Lemma ravel_unravel shp k :
  k < size_of shp → ravel_multi_index (unravel_index shp k) shp = k.
Proof.
  revert k. induction shp as [|d shp IH]; intros k Hk; simpl.
  - simpl in Hk. lia.
  - simpl in Hk. fold (size_of shp) in *.
    assert (size_of shp ≠ 0) as Hs by (intros Hz; rewrite Hz in Hk; lia).
    rewrite IH by by apply Nat.mod_upper_bound.
    pose proof (Nat.div_mod_eq k (size_of shp)). lia.
Qed.


Lemma elem_of_select_seq (cond : list bool) (n k : nat) :
  k ∈ select (seq n (length cond)) cond ↔ n ≤ k ∧ cond !! (k - n) = Some true.
Proof.
  revert n. induction cond as [|b cond IH]; intros n; simpl.
  - rewrite select_nil_r. split; [by intros ?%elem_of_nil | by intros [_ ?]].
  - rewrite select_cons.
    assert (k ∈ select (seq (S n) (length cond)) cond
            ↔ n < k ∧ (b :: cond) !! (k - n) = Some true) as Hrest.
    { rewrite IH. split.
      - intros [Hle Hk]. split; [lia|].
        by replace (k - n) with (S (k - S n)) by lia.
      - intros [Hlt Hk]. split; [lia|].
        by replace (k - n) with (S (k - S n)) in Hk by lia. }
    destruct b.
    + rewrite elem_of_cons, Hrest. split.
      * intros [->|[? ?]]; [|split; [lia|done]].
        split; [lia|]. by replace (n - n) with 0 by lia.
      * intros [Hle Hk]. destruct (decide (k = n)) as [|Hne]; [by left|].
        right. split; [lia | done].
    + rewrite Hrest. split.
      * intros [? ?]. split; [lia | done].
      * intros [Hle Hk]. split; [|done].
        destruct (decide (k = n)) as [->|]; [|lia].
        by replace (n - n) with 0 in Hk by lia.
Qed.

Lemma elem_of_flatnonzero (cond : list bool) (k : nat) :
  k ∈ flatnonzero cond ↔ cond !! k = Some true.
Proof.
  unfold flatnonzero. rewrite elem_of_select_seq.
  replace (k - 0) with k by lia. split; [by intros [_ ?] | split; [lia | done]].
Qed.

Lemma label_sum_cons (x : Z) input (v : Z) labels (a : Z) :
  label_sum (x :: input) (v :: labels) a
  = ((if decide (v = a) then x else 0) + label_sum input labels a)%Z.
Proof.
  unfold label_sum. simpl. rewrite filter_cons. simpl.
  case_decide; [reflexivity|]. by rewrite Z.add_0_l.
Qed.

Lemma label_sum_ones_nonneg (values : list Z) (a : Z) :
  (0 ≤ label_sum (np_ones_like values) values a)%Z.
Proof.
  unfold np_ones_like. induction values as [|v values IH]; [done|].
  rewrite fmap_cons, label_sum_cons. case_decide; lia.
Qed.

Lemma label_sum_ones_pos (values : list Z) (a : Z) :
  (0 < label_sum (np_ones_like values) values a)%Z ↔ a ∈ values.
Proof.
  induction values as [|v values IH].
  - split; [by cbv | by intros ?%elem_of_nil].
  - pose proof (label_sum_ones_nonneg values a) as Hnn.
    unfold np_ones_like in *. rewrite fmap_cons, label_sum_cons, elem_of_cons.
    case_decide as Hv.
    + split; [auto | lia].
    + rewrite Z.add_0_l, IH. split; [auto | by intros [->|?]].
Qed.

Lemma coordinate_np_where (cond : ndarray bool) (i : nat) (c : list nat) :
  shape cond ≠ [] →
  coordinate (np_where cond) i = Some c
  ↔ (unravel_index (shape cond) <$> flatnonzero (data cond)) !! i = Some c.
Proof.
  intros Hshape. unfold coordinate, np_where.
  set (hits := unravel_index (shape cond) <$> flatnonzero (data cond)).
  set (ndim := length (shape cond)).
  assert (ndim ≠ 0) as Hndim by (unfold ndim; by destruct (shape cond)).
  assert (∀ h, h ∈ hits → length h = ndim) as Hlen.
  { intros h (k & -> & _)%list_elem_of_fmap. apply unravel_index_length. }
  rewrite mapM_Some, Forall2_fmap_l, Forall2_same_length_lookup, length_seq.
  split.
  - intros [Hc Hall].
    assert (∀ j y, j < ndim → c !! j = Some y →
              ((fun h : list nat => default 0 (h !! j)) <$> hits) !! i = Some y)
      as Hall'.
    { intros j y Hj Hy. apply (Hall j j y); [by apply lookup_seq | done]. }
    clear Hall.
    assert (is_Some (hits !! i)) as [h Hh].
    { destruct (lookup_lt_is_Some_2 c 0) as [y Hy]; [lia|].
      specialize (Hall' 0 y ltac:(lia) Hy). rewrite list_lookup_fmap in Hall'.
      destruct (hits !! i); [eauto | done]. }
    rewrite Hh. f_equal. apply list_eq_same_length with ndim; [done| |].
    { apply Hlen. by eapply list_elem_of_lookup_2. }
    intros j x y Hj Hx Hy.
    specialize (Hall' j y Hj Hy). rewrite list_lookup_fmap, Hh in Hall'.
    simpl in Hall'. rewrite Hx in Hall'. simpl in Hall'. congruence.
  - intros Hh.
    assert (length c = ndim) as Hc.
    { apply Hlen. by eapply list_elem_of_lookup_2. }
    split; [done|]. intros j a y [-> Hj]%lookup_seq Hy. simpl.
    rewrite list_lookup_fmap, Hh. simpl. by rewrite Hy.
Qed.



Lemma example_where_wf : wf_ndarray example_where.
Proof. split; [done | reflexivity]. Qed.


(** The docstring example. *)
Example where_list_docstring :
  where_list example_where [0; 5]%Z = [[0; 1; 2; 3]; [0; 0; 4; 4]].
Proof. reflexivity. Qed.

(** ** array_difference *)

Lemma py_set_scalars (elems : list Z) :
  py_set (Scalar <$> elems) = Ok (list_to_set elems).
Proof.
  induction elems as [|x elems IH]; [done|].
  rewrite fmap_cons. simpl. by rewrite IH.
Qed.

(** X9. On 1-D arrays the function is the set difference: every element of
    [array] that is missing from [subarray] is returned, once, nothing else
    is, and taking the difference with [subarray] again changes nothing. *)
Lemma array_difference_1d (a b : list Z) :
  ∃ out,
    array_difference (Array1 a) (Array1 b) = Ok out
    ∧ NoDup out
    ∧ (∀ x, x ∈ out ↔ x ∈ a ∧ x ∉ b)
    ∧ ∃ out', array_difference (Array1 out) (Array1 b) = Ok out' ∧ out' ≡ₚ out.
Proof.
  unfold array_difference. simpl. rewrite !py_set_scalars. simpl.
  set (s := list_to_set a ∖ list_to_set b : gset Z).
  exists (elements s). split; [done|]. split; [apply NoDup_elements|]. split.
  - intros x. rewrite elem_of_elements. unfold s.
    rewrite elem_of_difference, !elem_of_list_to_set. done.
  - rewrite py_set_scalars. simpl. eexists. split; [done|].
    rewrite list_to_set_elements_L.
    assert (s ∖ list_to_set b = s) as ->; [|done].
    unfold s. apply set_eq. intros x.
    rewrite !elem_of_difference. tauto.
Qed.

(** As soon as [array] has a row, building [set(array)] raises. *)
Lemma array_difference_rows (row : list Z) rows (subarray : pyarray) :
  array_difference (Array2 (row :: rows)) subarray = Raise TypeError.
Proof. done. Qed.

(** C4 (the code falls short). On the arrays of the docstring, a 2-D [array]
    and a 1-D [subarray], the call raises TypeError instead of returning the
    rows of [array] that are missing from [subarray]. *)
Theorem array_difference_docstring_raises :
  array_difference example_diff_a example_diff_b = Raise TypeError.
Proof. reflexivity. Qed.

(** ** weighted_percentile: which exception, and when *)

Lemma forallb_false_iff {A} (f : A → bool) (l : list A) :
  forallb f l = false ↔ ∃ x, x ∈ l ∧ f x = false.
Proof.
  induction l as [|y l IH]; simpl.
  - split; [done | by intros (? & ?%elem_of_nil & _)].
  - rewrite andb_false_iff, IH. split.
    + intros [Hy|(x & Hx & Hf)]; [exists y | exists x]; by rewrite elem_of_cons; auto.
    + intros (x & [->|Hx]%elem_of_cons & Hf); eauto.
Qed.

Lemma percentiles_ok_false (ps : list Q) :
  percentiles_ok ps = false ↔ ∃ p, p ∈ ps ∧ (p < 0 ∨ 100 < p)%Q.
Proof.
  unfold percentiles_ok. rewrite andb_false_iff, !forallb_false_iff. split.
  - intros [(p & Hp & Hf)|(p & Hp & Hf)]; exists p; (split; [done|]).
    + left. apply Qnot_le_lt. rewrite <-Qle_bool_iff. congruence.
    + right. apply Qnot_le_lt. rewrite <-Qle_bool_iff. congruence.
  - intros (p & Hp & [Hlt|Hlt]); [left|right]; exists p; (split; [done|]);
      apply not_true_is_false; rewrite Qle_bool_iff; by apply Qlt_not_le.
Qed.

Lemma percentiles_ok_true (ps : list Q) :
  percentiles_ok ps = true ↔ Forall (fun p => 0 <= p ∧ p <= 100)%Q ps.
Proof.
  unfold percentiles_ok. rewrite andb_true_iff, Forall_forall.
  rewrite !forallb_forall. setoid_rewrite <-list_elem_of_In.
  setoid_rewrite Qle_bool_iff. naive_solver.
Qed.

Lemma take_idx_raises {A} (a : list A) idx e :
  take_idx a idx = Raise e → e = IndexError.
Proof.
  induction idx as [|i idx IH]; simpl; [done|]. unfold getitem.
  destruct (a !! i); simpl; [|by intros [= <-]].
  destruct (take_idx a idx); simpl; [done|]. intros [= <-]. by apply IH.
Qed.

Lemma np_interp_raises x xp fp e :
  np_interp x xp fp = Raise e → e = ValueError.
Proof. unfold np_interp. repeat case_bool_decide; congruence. Qed.

(** C3. [weighted_percentile] fails on its assertion exactly when some
    requested percentile is outside [0, 100]. *)
Theorem weighted_percentile_assertion (values percentiles : list Q)
    (sample_weight : option (list Q)) (values_sorted : bool) :
  weighted_percentile values percentiles sample_weight values_sorted
    = Raise AssertionError
  ↔ ∃ p, p ∈ percentiles ∧ (p < 0 ∨ 100 < p)%Q.
Proof.
  rewrite <-percentiles_ok_false. unfold weighted_percentile.
  destruct (percentiles_ok percentiles); simpl; [|done].
  split; [|done]. intros Hraise. exfalso.
  destruct values_sorted; simpl in Hraise.
  - by apply np_interp_raises in Hraise.
  - destruct (take_idx values _) as [v|e] eqn:Hv; simpl in Hraise;
      [|injection Hraise as ->; by apply take_idx_raises in Hv].
    destruct (take_idx (default _ _) _) as [w|e] eqn:Hw; simpl in Hraise;
      [|injection Hraise as ->; by apply take_idx_raises in Hw].
    by apply np_interp_raises in Hraise.
Qed.

(** ** weighted_percentile: one value *)

Lemma interp1_single (xp f x : Q) : interp1 [xp] [f] x = f.
Proof. unfold interp1. simpl. by repeat destruct (Qle_bool _ _). Qed.

(** C9. With a single value (and no weight, or its single weight), every
    requested percentile in [0, 100] yields that value. *)
Theorem weighted_percentile_single (v : Q) (percentiles : list Q)
    (weight : option Q) (values_sorted : bool) :
  Forall (fun p => 0 <= p ∧ p <= 100)%Q percentiles →
  weighted_percentile [v] percentiles ((fun w => [w]) <$> weight) values_sorted
  = Ok ((fun _ => v) <$> percentiles).
Proof.
  intros Hok%percentiles_ok_true. unfold weighted_percentile. rewrite Hok. simpl.
  assert (∀ w : Q, np_interp percentiles (weighted_ranks [w]) [v]
                   = Ok ((fun _ => v) <$> percentiles)) as Hinterp.
  { intros w. unfold np_interp, weighted_ranks. simpl. f_equal.
    apply list_fmap_ext. intros _ p _. apply interp1_single. }
  destruct values_sorted, weight as [w|]; simpl; apply Hinterp.
Qed.

Lemma example_percentiles_ok :
  Forall (fun p => 0 <= p ∧ p <= 100)%Q example_percentiles.
Proof. repeat (constructor; [split; by apply Qle_bool_iff|]). constructor. Qed.

Lemma weighted_percentile_single_witness :
  Forall (fun p => 0 <= p ∧ p <= 100)%Q example_percentiles
  ∧ weighted_percentile [7]%Q example_percentiles None false = Ok [7; 7; 7]%Q.
Proof.
  split; [exact example_percentiles_ok|].
  apply (weighted_percentile_single 7%Q example_percentiles None false).
  exact example_percentiles_ok.
Defined.

(** ** weighted_percentile: values already sorted *)

Section sorted_input.
Context {K : Type} (leb : K → K → bool).

Lemma sort_stable_id (l : list (K * nat)) :
  Sorted (fun p q => leb p.1 q.1 = true) l → sort_stable leb l = l.
Proof using Type.
  induction 1 as [|p l _ IH Hhd]; simpl; [done|].
  rewrite IH. destruct Hhd as [|q l Hpq]; simpl; [done|]. by rewrite Hpq.
Qed.

Lemma zip_seq_Sorted (R : K → K → Prop) (keys : list K) (n : nat) :
  Sorted R keys → Sorted (fun p q : K * nat => R p.1 q.1) (zip keys (seq n (length keys))).
Proof using Type.
  intros H. revert n. induction H as [|k keys _ IH Hhd]; intros n; simpl.
  - constructor.
  - constructor; [apply IH|]. destruct Hhd; simpl; by constructor.
Qed.

Lemma argsort_sorted_id (keys : list K) :
  Sorted (fun a b => leb a b = true) keys →
  argsort leb keys = seq 0 (length keys).
Proof using Type.
  intros H. unfold argsort. rewrite sort_stable_id.
  - apply enumerate_snd.
  - by apply (zip_seq_Sorted (fun a b => leb a b = true)).
Qed.
End sorted_input.

Lemma Sorted_weaken {A} (R R' : A → A → Prop) (l : list A) :
  (∀ a b, R a b → R' a b) → Sorted R l → Sorted R' l.
Proof.
  intros HR. induction 1 as [|x l _ IH Hhd]; constructor; [done|].
  destruct Hhd; constructor; auto.
Qed.


Lemma np_sort_sorted (values : list Q) : Sorted Qle values → np_sort values = values.
Proof.
  intros Hsorted. unfold np_sort. rewrite sort_stable_id; [apply enumerate_fst|].
  apply (zip_seq_Sorted (fun a b => Qle_bool a b = true)).
  eapply Sorted_weaken; [|exact Hsorted].
  intros a b Hab. by apply Qle_bool_iff.
Qed.

(** Whatever order a sort gives to equal values, on strictly ascending
    values every sorting permutation is the identity. *)
Lemma strictly_ascending_lookup (values : list Q) (i j : nat) (x y : Q) :
  StronglySorted Qlt values → i < j →
  values !! i = Some x → values !! j = Some y → (x < y)%Q.
Proof.
  intros Hs. revert i j. induction Hs as [|v values _ IH Hall]; intros i j Hij Hi Hj.
  - done.
  - destruct j as [|j]; [lia|]. simpl in Hj. destruct i as [|i]; simpl in Hi.
    + injection Hi as <-. rewrite Forall_forall in Hall.
      apply Hall. by eapply list_elem_of_lookup_2.
    + apply (IH i j); [lia | done | done].
Qed.

Lemma seq_StronglySorted (k n : nat) : StronglySorted lt (seq k n).
Proof.
  revert k. induction n as [|n IH]; intros k; simpl; constructor; [apply IH|].
  apply Forall_forall. intros j Hj%elem_of_seq. lia.
Qed.

Lemma sorting_permutation_strict (values : list Q) (sorter : list nat) (out : list Q) :
  Sorted Qlt values →
  sorter ≡ₚ seq 0 (length values) →
  take_idx values sorter = Ok out →
  Sorted Qle out →
  sorter = seq 0 (length values).
Proof.
  intros Hvalues Hperm Htake Hout.
  assert (Transitive Qlt) as Htlt by (intros a b c; apply Qlt_trans).
  assert (Transitive Qle) as Htle by (intros a b c; apply Qle_trans).
  assert (AntiSymm (=) lt) as Hanti by (intros a b ? ?; lia).
  apply Sorted_StronglySorted in Hvalues; [|done].
  apply Sorted_StronglySorted in Hout; [|done].
  assert (NoDup sorter) as Hnd by (rewrite Hperm; apply NoDup_seq).
  apply (StronglySorted_unique lt); [| |done].
  - apply take_idx_Ok in Htake. clear Hperm.
    induction Htake as [|i x sorter out Hi Hrest IH]; [constructor|].
    apply NoDup_cons in Hnd as [Hnotin Hnd].
    apply StronglySorted_inv in Hout as [Hout Hx].
    constructor; [by apply IH|]. apply Forall_forall. intros j Hj.
    destruct (list_elem_of_lookup_1 _ _ Hj) as [n Hn].
    eapply Forall2_lookup_l in Hn as (y & Hy & Hjy); [|exact Hrest].
    rewrite Forall_forall in Hx.
    assert (x <= y)%Q as Hxy by (apply Hx; by eapply list_elem_of_lookup_2).
    destruct (Nat.lt_trichotomy i j) as [?|[->|Hlt]]; [done|done|].
    pose proof (strictly_ascending_lookup values j i y x Hvalues Hlt Hjy Hi) as Hyx.
    exfalso. by apply (Qlt_not_le _ _ Hyx).
  - apply seq_StronglySorted.
Qed.




(** ** weighted_percentile: weights of another length *)

Lemma take_idx_out_of_range {A} (a : list A) (idx : list nat) (i : nat) :
  i ∈ idx → a !! i = None → take_idx a idx = Raise IndexError.
Proof.
  intros Hin Hi. destruct (take_idx a idx) as [xs|e] eqn:Htake.
  - apply take_idx_Ok in Htake. exfalso. clear -Hin Hi Htake.
    induction Htake as [|j x idx xs Hj _ IH]; [by apply elem_of_nil in Hin|].
    apply elem_of_cons in Hin as [->|Hin]; [congruence | auto].
  - by apply take_idx_raises in Htake as ->.
Qed.

Lemma take_idx_take {A} (a : list A) (idx : list nat) (n : nat) :
  Forall (fun i => i < n) idx → take_idx (take n a) idx = take_idx a idx.
Proof.
  induction 1 as [|i idx Hi _ IH]; simpl; [done|].
  unfold getitem. by rewrite lookup_take_lt, IH.
Qed.

Lemma cumsum_from_length acc w : length (cumsum_from acc w) = length w.
Proof. revert acc. induction w as [|x w IH]; intros acc; simpl; auto. Qed.

Lemma weighted_ranks_length w : length (weighted_ranks w) = length w.
Proof.
  unfold weighted_ranks, np_cumsum.
  rewrite length_zip_with, cumsum_from_length. lia.
Qed.

Lemma np_argsort_bounds (values : list Q) :
  Forall (fun i => i < length values) (np_argsort values).
Proof.
  unfold np_argsort. rewrite argsort_perm. apply Forall_forall.
  intros i Hi%elem_of_seq. lia.
Qed.

Lemma np_argsort_take (values : list Q) :
  take_idx values (np_argsort values) = Ok (np_sort values).
Proof. apply take_idx_argsort. Qed.

Lemma np_sort_length (values : list Q) : length (np_sort values) = length values.
Proof. unfold np_sort. by rewrite sorted_keys_perm. Qed.

(** Weights as long as the values are permuted along with them. *)
Lemma np_argsort_take_weights (values w : list Q) :
  length w = length values →
  ∃ w', take_idx w (np_argsort values) = Ok w' ∧ w' ≡ₚ w.
Proof.
  intros Hlen. apply take_idx_Permutation with (seq 0 (length w)).
  - rewrite Hlen. apply argsort_perm.
  - apply take_idx_seq.
Qed.

(** C8 (as the code has it). With valid percentiles and weights whose length
    differs from that of the values: the call raises ValueError when
    [values_sorted] is true, raises IndexError when [values_sorted] is false
    and the weights are too few, and otherwise (too many weights, values not
    sorted) ignores the weights beyond [len(values)] and returns a result. *)
Theorem weighted_percentile_weight_length (values percentiles w : list Q) :
  length w ≠ length values →
  Forall (fun p => 0 <= p ∧ p <= 100)%Q percentiles →
  weighted_percentile values percentiles (Some w) true = Raise ValueError
  ∧ (length w < length values →
       weighted_percentile values percentiles (Some w) false = Raise IndexError)
  ∧ (length values < length w →
       weighted_percentile values percentiles (Some w) false
       = weighted_percentile values percentiles
           (Some (take (length values) w)) false
       ∧ (values ≠ [] →
            ∃ r, weighted_percentile values percentiles (Some w) false = Ok r)).
Proof.
  intros Hne Hok%percentiles_ok_true. unfold weighted_percentile.
  rewrite Hok. simpl. split; [|split].
  - unfold np_interp. rewrite weighted_ranks_length.
    case_bool_decide; [done|]. by rewrite bool_decide_true by done.
  - intros Hlt. rewrite np_argsort_take. simpl.
    rewrite (take_idx_out_of_range w _ (length w)); [done| |].
    + unfold np_argsort. rewrite argsort_perm. apply elem_of_seq. lia.
    + apply lookup_ge_None. lia.
  - intros Hlt. rewrite np_argsort_take. simpl.
    rewrite (take_idx_take w) by apply np_argsort_bounds.
    split; [done|]. intros Hval.
    destruct (np_argsort_take_weights values (take (length values) w))
      as (w' & Hw' & Hperm); [rewrite length_take; lia|].
    rewrite (take_idx_take w) in Hw' by apply np_argsort_bounds.
    rewrite Hw'. simpl.
    apply Permutation_length in Hperm. rewrite length_take in Hperm.
    unfold np_interp. rewrite weighted_ranks_length, np_sort_length, Hperm.
    assert (length values ≠ 0) by by destruct values.
    rewrite bool_decide_false by lia.
    rewrite bool_decide_false by lia. eauto.
Qed.

Lemma weighted_percentile_weight_length_witness :
  length [1; 1; 5]%Q ≠ length [1; 2]%Q
  ∧ Forall (fun p => 0 <= p ∧ p <= 100)%Q example_percentiles
  ∧ weighted_percentile [1; 2]%Q example_percentiles (Some [1; 1; 5]%Q) true
    = Raise ValueError
  ∧ (length [1; 1; 5]%Q < length [1; 2]%Q →
       weighted_percentile [1; 2]%Q example_percentiles (Some [1; 1; 5]%Q) false
       = Raise IndexError)
  ∧ (length [1; 2]%Q < length [1; 1; 5]%Q →
       weighted_percentile [1; 2]%Q example_percentiles (Some [1; 1; 5]%Q) false
       = weighted_percentile [1; 2]%Q example_percentiles
           (Some (take (length [1; 2]%Q) [1; 1; 5]%Q)) false
       ∧ ([1; 2]%Q ≠ [] →
            ∃ r, weighted_percentile [1; 2]%Q example_percentiles
                   (Some [1; 1; 5]%Q) false = Ok r)).
Proof.
  split; [simpl; lia|]. split; [exact example_percentiles_ok|].
  apply (weighted_percentile_weight_length [1; 2]%Q example_percentiles [1; 1; 5]%Q).
  - simpl. lia.
  - exact example_percentiles_ok.
Defined.

(** Against C8 as stated: with three weights for two values that are not
    declared sorted, a result comes back. *)
Lemma weighted_percentile_long_weights_return :
  length [1; 1; 5]%Q ≠ length [1; 2]%Q
  ∧ ∃ r, weighted_percentile [1; 2]%Q [50]%Q (Some [1; 1; 5]%Q) false = Ok [r]
         ∧ (r == 3 # 2)%Q.
Proof. split; [simpl; lia|]. eexists. split; reflexivity. Qed.

(** ** weighted_percentile: interpolation *)

Section interpolation.
Local Open Scope Q_scope.





Lemma last_cons {A} (x : A) (l : list A) (d : A) :
  List.last (x :: l) d = List.last l x.
Proof.
  revert x d. induction l as [|y l IH]; intros x d; [done|].
  change (List.last (x :: y :: l) d) with (List.last (y :: l) d).
  by rewrite (IH y d), (IH y x).
Qed.





End interpolation.

(** ** weighted_percentile: the ranks *)

Section ranks.
Local Open Scope Q_scope.


Lemma np_sum_Permutation (w w' : list Q) : w ≡ₚ w' → np_sum w == np_sum w'.
Proof.
  unfold np_sum. induction 1 as [|x w w' _ IH|x y w|w w' w'' _ IH1 _ IH2]; simpl.
  - reflexivity.
  - by rewrite IH.
  - ring.
  - by rewrite IH1.
Qed.

Lemma np_sum_ones (n : nat) : np_sum (np_ones n) == inject_Z (Z.of_nat n).
Proof.
  unfold np_sum, np_ones. induction n as [|n IH]; [reflexivity|].
  simpl replicate. simpl foldr. rewrite IH, Nat2Z.inj_succ.
  unfold Z.succ. rewrite inject_Z_plus. ring.
Qed.



End ranks.




Lemma np_ones_weights_ok (n : nat) :
  n ≠ 0 → Forall (Qle 0) (np_ones n) ∧ (0 < np_sum (np_ones n))%Q.
Proof.
  intros Hn. split.
  - unfold np_ones. apply Forall_replicate. by apply Qle_bool_iff.
  - rewrite np_sum_ones.
    change 0%Q with (inject_Z 0). rewrite <-Zlt_Qlt. lia.
Qed.

(** What [weighted_percentile] hands to [np.interp] once the percentiles
    passed the assertion, the weights can be permuted along with the values
    and the values are in order whenever they are declared so: sorted values
    and as many weights, with the same properties as before. *)
Lemma weighted_percentile_interp (values percentiles : list Q)
    (sample_weight : option (list Q)) (values_sorted : bool) :
  values ≠ [] →
  weights_ok values sample_weight →
  (values_sorted = true → Sorted Qle values) →
  Forall (fun p => 0 <= p ∧ p <= 100)%Q percentiles →
  ∃ v w,
    weighted_percentile values percentiles sample_weight values_sorted
      = Ok (interp1 (weighted_ranks w) v <$> percentiles)
    ∧ v = np_sort values
    ∧ w ≡ₚ default (np_ones (length values)) sample_weight
    ∧ Forall (Qle 0) w ∧ (0 < np_sum w)%Q.
Proof.
  intros Hval Hw Hsorted Hok%percentiles_ok_true.
  assert (length values ≠ 0) as Hn by by destruct values.
  set (w0 := default (np_ones (length values)) sample_weight).
  assert (length w0 = length values ∧ Forall (Qle 0) w0 ∧ (0 < np_sum w0)%Q)
    as (Hlen & Hnn & Hpos).
  { unfold w0. destruct sample_weight as [w|]; simpl; [done|].
    split; [unfold np_ones; by rewrite length_replicate|].
    by apply np_ones_weights_ok. }
  assert (∃ w, w ≡ₚ w0
              ∧ weighted_percentile values percentiles sample_weight values_sorted
                = np_interp percentiles (weighted_ranks w) (np_sort values))
    as (w & Hperm & ->).
  { unfold weighted_percentile. rewrite Hok. simpl. fold w0.
    destruct values_sorted; simpl.
    - exists w0. split; [done|]. by rewrite np_sort_sorted by auto.
    - rewrite np_argsort_take. simpl.
      destruct (np_argsort_take_weights values w0 Hlen) as (w & -> & Hperm).
      by exists w. }
  exists (np_sort values), w.
  split; [|split; [done|split; [done|split]]].
  - unfold np_interp. rewrite weighted_ranks_length, np_sort_length.
    rewrite (Permutation_length Hperm), Hlen.
    rewrite bool_decide_false by done. by rewrite bool_decide_false by auto.
  - rewrite Forall_forall in Hnn |- *. intros x Hx. apply Hnn. by rewrite <-Hperm.
  - by rewrite (np_sum_Permutation _ _ Hperm).
Qed.


Lemma example_shuffled_weights_ok :
  weights_ok example_shuffled (Some [1; 0; 2; 1; 3]%Q).
Proof.
  split; [done|]. split; [|done].
  repeat (constructor; [by apply Qle_bool_iff|]). constructor.
Qed.



(** ** weighted_percentile: uniform weights *)

Section uniform.
Local Open Scope Q_scope.

Lemma Qfloor_unique (v : Q) (k : nat) :
  inject_Z (Z.of_nat k) <= v → v < inject_Z (Z.of_nat k) + 1 →
  Z.to_nat (Qfloor v) = k.
Proof.
  intros Hlo Hhi. pose proof (Qfloor_le v) as Hf1. pose proof (Qlt_floor v) as Hf2.
  rewrite inject_Z_plus in Hf2.
  assert (Qfloor v = Z.of_nat k) as ->; [|apply Nat2Z.id].
  destruct (Z.lt_trichotomy (Qfloor v) (Z.of_nat k)) as [Hlt|[?|Hgt]]; [|done|].
  - exfalso. assert (Qfloor v + 1 <= Z.of_nat k)%Z as Hle by lia.
    rewrite Zle_Qle, inject_Z_plus in Hle. change (inject_Z 1) with 1 in *. lra.
  - exfalso. assert (Z.of_nat k + 1 <= Qfloor v)%Z as Hle by lia.
    rewrite Zle_Qle, inject_Z_plus in Hle. change (inject_Z 1) with 1 in *. lra.
Qed.

Lemma lerp_at_Qeq (s : list Q) (v v' : Q) : v == v' → lerp_at s v == lerp_at s v'.
Proof. intros Hv. unfold lerp_at. by rewrite (Qfloor_comp _ _ Hv), Hv. Qed.

(** On an integral index the interpolation returns the element there. *)
Lemma lerp_at_index (s : list Q) (v : Q) (k : nat) :
  v == inject_Z (Z.of_nat k) → lerp_at s v == nth k s 0.
Proof.
  intros Hv. rewrite (lerp_at_Qeq _ _ _ Hv). unfold lerp_at.
  rewrite Qfloor_Z, Nat2Z.id. ring.
Qed.

(** Between two indices it interpolates between the two elements. *)
Lemma lerp_at_between (s : list Q) (v : Q) (k : nat) :
  (k + 1 < length s)%nat →
  inject_Z (Z.of_nat k) <= v → v < inject_Z (Z.of_nat k) + 1 →
  lerp_at s v
  == nth k s 0 + (v - inject_Z (Z.of_nat k)) * (nth (k + 1) s 0 - nth k s 0).
Proof.
  intros Hk Hlo Hhi. unfold lerp_at. rewrite (Qfloor_unique v k Hlo Hhi).
  by replace ((k + 1) `min` (length s - 1))%nat with (k + 1)%nat by lia.
Qed.

Lemma Qclip_spec (v lo hi : Q) :
  lo <= hi →
  (v <= lo ∧ Qclip v lo hi = lo)
  ∨ (lo < v ∧ hi <= v ∧ Qclip v lo hi = hi)
  ∨ (lo < v ∧ v < hi ∧ Qclip v lo hi = v).
Proof.
  intros Hlh. unfold Qclip.
  destruct (Qle_bool v lo) eqn:Hlo.
  - left. by apply Qle_bool_iff in Hlo.
  - assert (lo < v) by (apply Qnot_le_lt; rewrite <-Qle_bool_iff; congruence).
    right. destruct (Qle_bool hi v) eqn:Hhi.
    + left. by apply Qle_bool_iff in Hhi.
    + right. repeat split; [done|].
      apply Qnot_le_lt. rewrite <-Qle_bool_iff. congruence.
Qed.

(** A rank against a percentile, read as an index against the virtual
    index [n * (p / 100) - 1/2]. *)
Lemma rank_le_iff (T N p c : Q) :
  T == N → 0 < N →
  100 * (c - (1 # 2) * 1) / T <= p ↔ c - 1 <= N * (p / 100) - (1 # 2).
Proof.
  intros HT HN. rewrite HT.
  assert (100 * (c - (1 # 2) * 1) / N * N == 100 * c - 50) as Hr by (field; lra).
  assert (N * (p / 100) * 100 == N * p) as Hu by field.
  set (r := 100 * (c - (1 # 2) * 1) / N) in *. set (u := N * (p / 100)) in *.
  split; intros H; nra.
Qed.

Lemma rank_ge_iff (T N p c : Q) :
  T == N → 0 < N →
  p <= 100 * (c - (1 # 2) * 1) / T ↔ N * (p / 100) - (1 # 2) <= c - 1.
Proof.
  intros HT HN. rewrite HT.
  assert (100 * (c - (1 # 2) * 1) / N * N == 100 * c - 50) as Hr by (field; lra).
  assert (N * (p / 100) * 100 == N * p) as Hu by field.
  set (r := 100 * (c - (1 # 2) * 1) / N) in *. set (u := N * (p / 100)) in *.
  split; intros H; nra.
Qed.

Lemma rank_eq_iff (T N p c : Q) :
  T == N → 0 < N →
  100 * (c - (1 # 2) * 1) / T == p ↔ c - 1 == N * (p / 100) - (1 # 2).
Proof.
  intros HT HN. rewrite HT.
  assert (100 * (c - (1 # 2) * 1) / N * N == 100 * c - 50) as Hr by (field; lra).
  assert (N * (p / 100) * 100 == N * p) as Hu by field.
  set (r := 100 * (c - (1 # 2) * 1) / N) in *. set (u := N * (p / 100)) in *.
  split; intros H; nra.
Qed.

Lemma inject_Z_length_snoc {A} (pre : list A) (x : A) :
  inject_Z (Z.of_nat (length (pre ++ [x]))) == inject_Z (Z.of_nat (length pre)) + 1.
Proof.
  rewrite length_app. simpl. rewrite Nat2Z.inj_add, inject_Z_plus. reflexivity.
Qed.

(** The search over the ranks of uniform weights, started on the element of
    index [length pre], ends on the two neighbours of the virtual index. *)
Lemma interp_search_uniform (T p : Q) (s : list Q) :
  T == inject_Z (Z.of_nat (length s)) →
  inject_Z (Z.of_nat (length s)) * (p / 100) - (1 # 2)
    <= inject_Z (Z.of_nat (length s)) - 1 →
  ∀ (fs pre : list Q) (f acc : Q),
    s = pre ++ f :: fs →
    acc == inject_Z (Z.of_nat (length pre)) →
    inject_Z (Z.of_nat (length pre))
      <= inject_Z (Z.of_nat (length s)) * (p / 100) - (1 # 2) →
    interp_search p (100 * ((acc + 1) - (1 # 2) * 1) / T) f
      (zip (zip_with (fun c x => 100 * (c - (1 # 2) * x) / T)
              (cumsum_from (acc + 1) (replicate (length fs) 1))
              (replicate (length fs) 1)) fs)
    == lerp_at s (inject_Z (Z.of_nat (length s)) * (p / 100) - (1 # 2)).
Proof.
  set (N := inject_Z (Z.of_nat (length s))). set (v := N * (p / 100) - (1 # 2)).
  intros HT Hhi fs. induction fs as [|f' fs IH]; intros pre f acc Hs Hacc Hlo.
  - simpl. symmetry.
    assert (N == inject_Z (Z.of_nat (length pre)) + 1) as HN.
    { unfold N. rewrite Hs. apply inject_Z_length_snoc. }
    rewrite (lerp_at_index s v (length pre)) by lra.
    rewrite Hs. by rewrite nth_middle.
  - assert (0 < N) as HN.
    { unfold N. rewrite Hs, length_app. simpl.
      change 0 with (inject_Z 0). rewrite <-Zlt_Qlt. lia. }
    change (interp_search p (100 * ((acc + 1) - (1 # 2) * 1) / T) f _)
      with (let x0 := 100 * ((acc + 1) - (1 # 2) * 1) / T in
            let x1 := 100 * ((acc + 1 + 1) - (1 # 2) * 1) / T in
            if Qle_bool x1 p then
              interp_search p x1 f'
                (zip (zip_with (fun c x => 100 * (c - (1 # 2) * x) / T)
                        (cumsum_from (acc + 1 + 1) (replicate (length fs) 1))
                        (replicate (length fs) 1)) fs)
            else if Qeq_bool x0 p then f
            else (f' - f) / (x1 - x0) * (p - x0) + f).
    cbv zeta.
    destruct (Qle_bool _ p) eqn:Hx1.
    + apply Qle_bool_iff, (rank_le_iff T N p (acc + 1 + 1) HT HN) in Hx1.
      apply (IH (pre ++ [f])).
      * by rewrite <-app_assoc.
      * rewrite inject_Z_length_snoc. by rewrite Hacc.
      * rewrite inject_Z_length_snoc. fold N v. fold v in Hx1. lra.
    + assert (v < inject_Z (Z.of_nat (length pre)) + 1) as Hv.
      { apply Qnot_le_lt. intros Hle.
        assert (Qle_bool (100 * ((acc + 1 + 1) - (1 # 2) * 1) / T) p = true);
          [|congruence].
        apply Qle_bool_iff, (rank_le_iff T N p (acc + 1 + 1) HT HN).
        fold v. lra. }
      assert (nth (length pre) s 0 = f) as Hf by (rewrite Hs; apply nth_middle).
      assert (nth (length pre + 1) s 0 = f') as Hf'.
      { assert (s = (pre ++ [f]) ++ f' :: fs) as -> by by rewrite <-app_assoc.
        replace (length pre + 1)%nat with (length (pre ++ [f])).
        - apply nth_middle.
        - rewrite length_app. simpl. lia. }
      destruct (Qeq_bool _ p) eqn:Hx0.
      * apply Qeq_bool_iff, (rank_eq_iff T N p (acc + 1) HT HN) in Hx0.
        fold v in Hx0. rewrite (lerp_at_index s v (length pre)) by lra.
        by rewrite Hf.
      * rewrite (lerp_at_between s v (length pre)); [|rewrite Hs, length_app; simpl; lia|done|done].
        rewrite Hf, Hf'. rewrite HT. rewrite <-Hacc. unfold v. field. lra.
Qed.

Lemma uniform_last (T : Q) (fs : list Q) (acc x0 f0 : Q) :
  x0 == 100 * (acc - (1 # 2) * 1) / T →
  let l := List.last
             (zip (zip_with (fun c x => 100 * (c - (1 # 2) * x) / T)
                     (cumsum_from acc (replicate (length fs) 1))
                     (replicate (length fs) 1)) fs) (x0, f0) in
  l.1 == 100 * ((acc + inject_Z (Z.of_nat (length fs))) - (1 # 2) * 1) / T
  ∧ l.2 = nth (length fs) (f0 :: fs) 0.
Proof.
  revert acc x0 f0. induction fs as [|f' fs IH]; intros acc x0 f0 Hx0 l.
  - subst l. simpl. split; [|done]. rewrite Hx0.
    assert (acc + inject_Z 0 == acc) as -> by (change (inject_Z 0) with 0; ring).
    reflexivity.
  - subst l.
    change (zip _ (f' :: fs))
      with ((100 * ((acc + 1) - (1 # 2) * 1) / T, f')
            :: zip (zip_with (fun c x => 100 * (c - (1 # 2) * x) / T)
                      (cumsum_from (acc + 1) (replicate (length fs) 1))
                      (replicate (length fs) 1)) fs).
    rewrite last_cons.
    destruct (IH (acc + 1) (100 * ((acc + 1) - (1 # 2) * 1) / T) f') as [H1 H2];
      [reflexivity|].
    split; [|exact H2]. rewrite H1.
    assert (acc + 1 + inject_Z (Z.of_nat (length fs))
            == acc + inject_Z (Z.of_nat (length (f' :: fs)))) as ->; [|reflexivity].
    simpl length. rewrite Nat2Z.inj_succ. unfold Z.succ. rewrite inject_Z_plus.
    change (inject_Z 1) with 1. ring.
Qed.

(** With uniform weights, interpolating the ranks is interpolating the
    sorted values at the virtual index of the mid-point method. *)
Lemma interp1_uniform (s : list Q) (p : Q) :
  s ≠ [] →
  interp1 (weighted_ranks (np_ones (length s))) s p
  == lerp_at s (Qclip (virtual_index (1 # 2) (1 # 2) (length s) (p / 100)) 0
                  (inject_Z (Z.of_nat (length s) - 1))).
Proof.
  intros Hs. destruct s as [|f0 fs]; [done|]. clear Hs.
  set (s := f0 :: fs). set (N := inject_Z (Z.of_nat (length s))).
  set (T := np_sum (np_ones (length s))).
  assert (T == N) as HT by apply np_sum_ones.
  assert (N == inject_Z (Z.of_nat (length fs)) + 1) as HNfs.
  { unfold N, s. simpl length. rewrite Nat2Z.inj_succ. unfold Z.succ.
    rewrite inject_Z_plus. reflexivity. }
  assert (0 <= inject_Z (Z.of_nat (length fs))) as Hfs0.
  { change 0 with (inject_Z 0). rewrite <-Zle_Qle. lia. }
  assert (0 < N) as HN by lra.
  assert (inject_Z (Z.of_nat (length s) - 1) == N - 1) as Hhi.
  { unfold N. unfold Z.sub. rewrite inject_Z_plus. reflexivity. }
  assert (virtual_index (1 # 2) (1 # 2) (length s) (p / 100)
          == N * (p / 100) - (1 # 2)) as Hv.
  { unfold virtual_index. fold N. field. }
  set (v := N * (p / 100) - (1 # 2)) in *.
  assert (Qclip (virtual_index (1 # 2) (1 # 2) (length s) (p / 100)) 0
            (inject_Z (Z.of_nat (length s) - 1)) == Qclip v 0 (N - 1)) as Hclip.
  { unfold Qclip.
    assert (Qle_bool (virtual_index (1 # 2) (1 # 2) (length s) (p / 100)) 0
            = Qle_bool v 0) as ->.
    { apply eq_true_iff_eq. rewrite !Qle_bool_iff. by rewrite Hv. }
    assert (Qle_bool (inject_Z (Z.of_nat (length s) - 1))
              (virtual_index (1 # 2) (1 # 2) (length s) (p / 100))
            = Qle_bool (N - 1) v) as ->.
    { apply eq_true_iff_eq. rewrite !Qle_bool_iff. by rewrite Hv, Hhi. }
    repeat destruct (Qle_bool _ _); [reflexivity | exact Hhi | exact Hv]. }
  rewrite (lerp_at_Qeq s _ _ Hclip). clear Hclip Hv Hhi.
  unfold interp1.
  change (zip (weighted_ranks (np_ones (length s))) s)
    with ((100 * ((0 + 1) - (1 # 2) * 1) / T, f0)
          :: zip (zip_with (fun c x => 100 * (c - (1 # 2) * x) / T)
                    (cumsum_from (0 + 1) (replicate (length fs) 1))
                    (replicate (length fs) 1)) fs).
  set (x0 := 100 * ((0 + 1) - (1 # 2) * 1) / T).
  set (rest := zip _ fs).
  destruct (uniform_last T fs (0 + 1) x0 f0) as [Hxn Hfn]; [reflexivity|].
  fold rest in Hxn, Hfn.
  destruct (List.last rest (x0, f0)) as [xn fn]. cbn [fst snd] in Hxn, Hfn.
  assert (xn == 100 * (N - (1 # 2) * 1) / T) as Hxn'.
  { rewrite Hxn.
    assert (0 + 1 + inject_Z (Z.of_nat (length fs)) == N) as ->; [|reflexivity].
    rewrite HNfs. ring. }
  clear Hxn.
  assert (p <= xn ↔ v <= N - 1) as Hn.
  { rewrite Hxn'. apply rank_ge_iff; done. }
  assert (x0 <= p ↔ 0 <= v) as H0.
  { unfold x0. rewrite (rank_le_iff T N p (0 + 1) HT HN). fold v.
    assert (0 + 1 - 1 == 0) as -> by ring. done. }
  assert (0 <= v → v <= N - 1 → interp_search p x0 f0 rest == lerp_at s v)
    as Hsearch.
  { intros Hv0 Hv1.
    apply (interp_search_uniform T p s HT Hv1 fs [] f0 0); [done|reflexivity|done]. }
  destruct (Qclip_spec v 0 (N - 1)) as [[Hc Hcl]|[(Hc1 & Hc2 & Hcl)|(Hc1 & Hc2 & Hcl)]];
    [lra| | |].
  - (* the virtual index is at most 0 *)
    rewrite Hcl. rewrite (lerp_at_index s 0 0) by reflexivity.
    change (nth 0 s 0) with f0.
    assert (Qle_bool p xn = true) as -> by (apply Qle_bool_iff, Hn; lra). simpl.
    destruct (Qle_bool x0 p) eqn:Hx0; simpl; [|reflexivity].
    apply Qle_bool_iff, H0 in Hx0.
    rewrite Hsearch by lra.
    rewrite (lerp_at_index s v 0); [reflexivity|].
    change (inject_Z (Z.of_nat 0)) with 0. lra.
  - (* the virtual index is at least n - 1 *)
    rewrite Hcl. rewrite (lerp_at_index s (N - 1) (length fs)) by (rewrite HNfs; ring).
    assert (nth (length fs) s 0 = fn) as -> by done.
    destruct (Qle_bool p xn) eqn:Hpn; simpl; [|reflexivity].
    apply Qle_bool_iff, Hn in Hpn.
    assert (Qle_bool x0 p = true) as -> by (apply Qle_bool_iff, H0; lra). simpl.
    rewrite Hsearch by lra.
    rewrite (lerp_at_index s v (length fs)); [rewrite Hfn; reflexivity|].
    rewrite HNfs in Hpn, Hc2. lra.
  - (* strictly inside *)
    rewrite Hcl.
    assert (Qle_bool p xn = true) as -> by (apply Qle_bool_iff, Hn; lra).
    assert (Qle_bool x0 p = true) as -> by (apply Qle_bool_iff, H0; lra). simpl.
    rewrite Hsearch by lra. reflexivity.
Qed.
End uniform.

(** C5 (as the code has it). For non-empty values, percentiles in [0, 100]
    and no weights, the result is the unweighted percentile with mid-point
    plotting positions (numpy's [hazen] method) of the values, not the
    standard [linear] one. *)
Theorem weighted_percentile_uniform (values percentiles : list Q)
    (values_sorted : bool) :
  values ≠ [] →
  (values_sorted = true → Sorted Qle values) →
  Forall (fun p => 0 <= p ∧ p <= 100)%Q percentiles →
  ∃ r,
    weighted_percentile values percentiles None values_sorted = Ok r
    ∧ Forall2 Qeq r (hazen_percentile values <$> percentiles).
Proof.
  intros Hval Hsorted Hok.
  destruct (weighted_percentile_interp values percentiles None values_sorted)
    as (v & w & -> & -> & Hperm & _); try done.
  eexists. split; [done|]. simpl in Hperm. unfold np_ones in Hperm.
  symmetry in Hperm. apply replicate_Permutation in Hperm as <-.
  apply Forall2_fmap, Forall_Forall2_diag, Forall_forall. intros p _.
  unfold hazen_percentile, percentile_method.
  rewrite <-(np_sort_length values). apply interp1_uniform.
  intros Hnil. apply (f_equal length) in Hnil. rewrite np_sort_length in Hnil.
  by destruct values.
Qed.

Lemma weighted_percentile_uniform_witness :
  example_values ≠ []
  ∧ Forall (fun p => 0 <= p ∧ p <= 100)%Q example_percentiles
  ∧ ∃ r,
      weighted_percentile example_values example_percentiles None false = Ok r
      ∧ Forall2 Qeq r (hazen_percentile example_values <$> example_percentiles).
Proof.
  split; [done|]. split; [exact example_percentiles_ok|].
  apply (weighted_percentile_uniform example_values example_percentiles false).
  - done.
  - done.
  - exact example_percentiles_ok.
Defined.

(** The example of the specification. *)
Example weighted_percentile_example :
  weighted_percentile example_values example_percentiles None false
  = Ok [1; 3; 5]%Q.
Proof. reflexivity. Qed.

(** Against C5 as stated: at the 25th percentile of 1..5 the function gives
    7/4, the standard percentile is 2. *)
Lemma weighted_percentile_not_standard :
  ∃ r,
    weighted_percentile example_values [25]%Q None false = Ok [r]
    ∧ (r == 7 # 4)%Q
    ∧ (standard_percentile example_values 25 == 2)%Q
    ∧ ¬ (r == standard_percentile example_values 25)%Q.
Proof.
  eexists. split; [reflexivity|]. split; [reflexivity|]. split; [reflexivity|].
  intros H. vm_compute in H. discriminate H.
Qed.

(** * Further properties *)

(** ** array_unique: what the output is *)

Lemma select_all_true {A} (a : list A) (m : list bool) :
  length m = length a → Forall (fun b => b = true) m → select a m = a.
Proof.
  revert m. induction a as [|x a IH]; intros [|b m] Hlen Hall; try done.
  apply Forall_cons in Hall as [-> Hall]. rewrite select_cons.
  f_equal. apply IH; [by injection Hlen | done].
Qed.

Lemma mask_from_all_true (prev : list Z) (aux : list (list Z)) :
  StronglySorted (fun a b => memcmp a b = Lt) (prev :: aux) →
  length (mask_from prev aux) = length aux
  ∧ Forall (fun b => b = true) (mask_from prev aux).
Proof.
  revert prev. induction aux as [|k aux IH]; intros prev Hs; simpl; [done|].
  apply StronglySorted_inv in Hs as [Hs Hprev].
  apply Forall_cons in Hprev as [Hpk _].
  destruct (IH k Hs) as [Hlen Hall]. split; [by rewrite Hlen|].
  constructor; [|done]. apply void_neqb_spec. intros ->.
  assert (memcmp prev prev = Eq) by by apply memcmp_Eq. congruence.
Qed.

(** On items that are already in strictly ascending order, [np.unique] keeps
    everything in place. *)
Lemma np_unique_index_sorted (ar : list (list Z)) :
  StronglySorted (fun a b => memcmp a b = Lt) ar →
  np_unique_index ar = Ok (ar, seq 0 (length ar)).
Proof.
  intros Hs. unfold np_unique_index.
  rewrite argsort_sorted_id.
  2:{ eapply Sorted_weaken; [|apply StronglySorted_Sorted, Hs].
      intros a b Hab. apply void_leb_spec. by left. }
  rewrite take_idx_seq. simpl.
  assert (length (unique_mask ar) = length ar
          ∧ Forall (fun b => b = true) (unique_mask ar)) as [Hlen Hall].
  { destruct ar as [|k ar]; [done|]. simpl.
    destruct (mask_from_all_true k ar Hs) as [Hlen Hall].
    split; [by rewrite Hlen | by constructor]. }
  rewrite !select_all_true; [done | by rewrite length_seq | done..].
Qed.

(** The rows of the output, as a set and as a list: the rows of the input,
    none twice, in strictly ascending order of their byte images. *)
Lemma array_unique_rows_set (array : list (list Z)) (return_index : bool) :
  wf_array2d array →
  ∃ idx out,
    array_unique array return_index
      = Ok (if return_index then RowsIndex out idx else Rows out)
    ∧ StronglySorted (fun a b => memcmp a b = Lt) (void_view out)
    ∧ NoDup out
    ∧ (∀ r, r ∈ out ↔ r ∈ array).
Proof.
  intros Hwf.
  destruct (array_unique_spec array return_index)
    as (idx & out & Hrun & Hidx & Hs & He & _).
  exists idx, out. split; [done|]. split; [done|].
  assert (∀ r, r ∈ out → r ∈ array) as Hsub.
  { intros r Hr. eapply take_idx_elem_of; [by apply take_idx_Ok | done]. }
  split; [|split; [by apply Hsub|]].
  - apply strictly_sorted_NoDup in Hs. by apply NoDup_fmap_1 in Hs.
  - intros Hr.
    assert (r ≫= int64_bytes ∈ void_view out) as Hk.
    { apply He. unfold void_view. apply list_elem_of_fmap. eauto. }
    unfold void_view in Hk. apply list_elem_of_fmap in Hk as (r' & Heq & Hr').
    assert (r = r') as ->; [|done].
    apply row_bytes_inj; [| |done]; eapply wf_array2d_rows; eauto.
Qed.

Lemma wf_array2d_Permutation (array array' : list (list Z)) :
  array ≡ₚ array' → wf_array2d array → wf_array2d array'.
Proof.
  intros Hperm (ncols & Hpos & Hall). exists ncols. split; [done|].
  rewrite Forall_forall in Hall |- *. intros r Hr. apply Hall. by rewrite Hperm.
Qed.

Lemma void_view_inj (rows rows' : list (list Z)) :
  Forall (Forall in_int64) rows → Forall (Forall in_int64) rows' →
  void_view rows = void_view rows' → rows = rows'.
Proof.
  unfold void_view. intros Hr. revert rows'.
  induction Hr as [|r rows Hr _ IH]; intros rows' Hr' Heq.
  - destruct rows'; [done | by rewrite fmap_cons in Heq].
  - destruct Hr' as [|r' rows' Hr' Hrows']; [by rewrite fmap_cons in Heq|].
    rewrite !fmap_cons in Heq. injection Heq as Hk Hrest.
    f_equal; [by apply row_bytes_inj | by apply IH].
Qed.

(** X2. Applying [array_unique] to its own output changes nothing: the rows
    come back as they are, and the indices are 0, 1, 2, ... *)
Theorem array_unique_idempotent (array : list (list Z)) :
  wf_array2d array →
  ∃ out,
    array_unique array false = Ok (Rows out)
    ∧ array_unique out true = Ok (RowsIndex out (seq 0 (length out))).
Proof.
  intros Hwf.
  destruct (array_unique_rows_set array false Hwf) as (_ & out & Hrun & Hs & _).
  exists out. split; [done|]. unfold array_unique.
  rewrite (np_unique_index_sorted _ Hs). simpl.
  unfold void_view. rewrite length_fmap, take_idx_seq. done.
Qed.

Lemma array_unique_idempotent_witness :
  wf_array2d example_a
  ∧ ∃ out,
      array_unique example_a false = Ok (Rows out)
      ∧ array_unique out true = Ok (RowsIndex out (seq 0 (length out))).
Proof.
  split; [exact example_a_wf|].
  apply (array_unique_idempotent example_a). exact example_a_wf.
Defined.

(** X3. The rows returned do not depend on the order of the rows of the
    input. *)
Theorem array_unique_order_independent (array array' : list (list Z)) :
  wf_array2d array → array ≡ₚ array' →
  ∃ out,
    array_unique array false = Ok (Rows out)
    ∧ array_unique array' false = Ok (Rows out).
Proof.
  intros Hwf Hperm.
  pose proof (wf_array2d_Permutation _ _ Hperm Hwf) as Hwf'.
  destruct (array_unique_rows_set array false Hwf)
    as (_ & out & Hrun & Hs & Hnd & He).
  destruct (array_unique_rows_set array' false Hwf')
    as (_ & out' & Hrun' & Hs' & Hnd' & He').
  exists out. split; [done|]. rewrite Hrun'. do 2 f_equal.
  assert (out' ≡ₚ out) as Hout.
  { apply NoDup_Permutation; [done..|]. intros r. by rewrite He, He', Hperm. }
  apply void_view_inj.
  - apply Forall_forall. intros r Hr. eapply wf_array2d_rows; [exact Hwf'|].
    by apply He'.
  - apply Forall_forall. intros r Hr. eapply wf_array2d_rows; [exact Hwf|].
    by apply He.
  - assert (AntiSymm (=) (fun a b : list Z => memcmp a b = Lt)) as Hanti.
    { intros a b Hab Hba. pose proof (memcmp_Lt_trans _ _ _ Hab Hba) as Haa.
      assert (memcmp a a = Eq) by by apply memcmp_Eq. congruence. }
    apply (StronglySorted_unique (fun a b : list Z => memcmp a b = Lt)); [done..|].
    unfold void_view. by rewrite Hout.
Qed.

Lemma array_unique_order_independent_witness :
  wf_array2d example_a ∧ example_a ≡ₚ reverse example_a
  ∧ ∃ out,
      array_unique example_a false = Ok (Rows out)
      ∧ array_unique (reverse example_a) false = Ok (Rows out).
Proof.
  assert (example_a ≡ₚ reverse example_a) as Hperm
    by (symmetry; apply reverse_Permutation).
  split; [exact example_a_wf|]. split; [exact Hperm|].
  apply (array_unique_order_independent example_a (reverse example_a));
    [exact example_a_wf | exact Hperm].
Defined.



(** ** where_list: order, count, and what it depends on *)

Lemma where_list_mask (array : ndarray Z) (values : list Z) :
  (fun m => bool_decide (0 < m)%Z)
    <$> data (nd_sum (np_ones_like values) values array)
  = (fun x => bool_decide (x ∈ values)) <$> data array.
Proof.
  unfold nd_sum. simpl. rewrite <-list_fmap_compose.
  apply list_fmap_ext. intros _ x _. simpl.
  apply bool_decide_ext, label_sum_ones_pos.
Qed.

Lemma where_list_unfold (array : ndarray Z) (values : list Z) :
  where_list array values
  = np_where (NdArray (shape array)
                ((fun x => bool_decide (x ∈ values)) <$> data array)).
Proof. unfold where_list. by rewrite where_list_mask. Qed.

Lemma select_StronglySorted {A} (R : A → A → Prop) (a : list A) (m : list bool) :
  StronglySorted R a → StronglySorted R (select a m).
Proof.
  intros Hs. revert m. induction Hs as [|x a _ IH Hall]; intros m.
  - destruct m; constructor.
  - destruct m as [|b m]; [rewrite select_nil_r; constructor|].
    rewrite select_cons. destruct b; [|apply IH].
    constructor; [apply IH|]. apply Forall_forall. intros y Hy.
    rewrite Forall_forall in Hall. apply Hall. by eapply select_elem_of.
Qed.

Lemma flatnonzero_StronglySorted (cond : list bool) :
  StronglySorted lt (flatnonzero cond).
Proof. apply select_StronglySorted, seq_StronglySorted. Qed.

Lemma StronglySorted_lookup_lt (l : list nat) (i j x y : nat) :
  StronglySorted lt l → i < j → l !! i = Some x → l !! j = Some y → x < y.
Proof.
  intros Hs. revert i j. induction Hs as [|z l _ IH Hall]; intros i j Hij Hi Hj.
  - done.
  - destruct j as [|j]; [lia|]. simpl in Hj. destruct i as [|i]; simpl in Hi.
    + injection Hi as <-. rewrite Forall_forall in Hall.
      apply Hall. by eapply list_elem_of_lookup_2.
    + apply (IH i j); [lia | done | done].
Qed.

(** X5. The coordinates come in row-major order: from one returned
    coordinate to the next the flat offset in the array grows, so that no
    position is returned twice. *)
Theorem where_list_row_major (array : ndarray Z) (values : list Z) :
  wf_ndarray array → values ≠ [] →
  ∀ i j c c',
    i < j →
    coordinate (where_list array values) i = Some c →
    coordinate (where_list array values) j = Some c' →
    ravel_multi_index c (shape array) < ravel_multi_index c' (shape array).
Proof.
  intros [Hshape Hsize] _ i j c c' Hij. rewrite where_list_unfold.
  set (cond := (fun x => bool_decide (x ∈ values)) <$> data array).
  rewrite !coordinate_np_where by done. simpl.
  intros (k & -> & Hk)%list_lookup_fmap_Some (k' & -> & Hk')%list_lookup_fmap_Some.
  assert (∀ n m, flatnonzero cond !! n = Some m → m < size_of (shape array)) as Hb.
  { intros n m Hm. apply list_elem_of_lookup_2, elem_of_flatnonzero in Hm.
    apply lookup_lt_Some in Hm. unfold cond in Hm.
    rewrite length_fmap in Hm. lia. }
  rewrite !ravel_unravel by eauto.
  eapply StronglySorted_lookup_lt; [apply flatnonzero_StronglySorted|done..].
Qed.

Lemma where_list_row_major_witness :
  wf_ndarray example_where ∧ [0; 5]%Z ≠ []
  ∧ ∀ i j c c',
      i < j →
      coordinate (where_list example_where [0; 5]%Z) i = Some c →
      coordinate (where_list example_where [0; 5]%Z) j = Some c' →
      ravel_multi_index c (shape example_where)
      < ravel_multi_index c' (shape example_where).
Proof.
  split; [exact example_where_wf|]. split; [done|].
  apply (where_list_row_major example_where [0; 5]%Z);
    [exact example_where_wf | done].
Defined.

Lemma select_seq_length {A} (P : A → Prop) `{∀ x, Decision (P x)}
    (l : list A) (n : nat) :
  length (select (seq n (length l)) ((fun x => bool_decide (P x)) <$> l))
  = length (filter P l).
Proof.
  revert n. induction l as [|x l IH]; intros n; [done|].
  rewrite fmap_cons. simpl length. simpl seq. rewrite select_cons, filter_cons.
  case_bool_decide; [rewrite decide_True by done | rewrite decide_False by done];
    simpl; by rewrite IH.
Qed.

(** X6. Every returned index array has as many entries as the array has
    elements whose value is in the query list. *)
Theorem where_list_count (array : ndarray Z) (values : list Z) :
  wf_ndarray array → values ≠ [] →
  Forall (fun arr => length arr = length (filter (fun x => x ∈ values) (data array)))
    (where_list array values).
Proof.
  intros _ _. rewrite where_list_unfold. unfold np_where. simpl.
  apply Forall_fmap, Forall_forall. intros axis _. simpl.
  rewrite !length_fmap. unfold flatnonzero. rewrite length_fmap.
  apply (select_seq_length (fun x => x ∈ values)).
Qed.

Lemma where_list_count_witness :
  wf_ndarray example_where ∧ [0; 5]%Z ≠ []
  ∧ Forall (fun arr => length arr
                       = length (filter (fun x => x ∈ [0; 5]%Z) (data example_where)))
      (where_list example_where [0; 5]%Z).
Proof.
  split; [exact example_where_wf|]. split; [done|].
  apply (where_list_count example_where [0; 5]%Z);
    [exact example_where_wf | done].
Defined.

(** X7. Only the set of queried values matters: repeating values in the
    query list, or reordering it, changes nothing. *)
Theorem where_list_values_set (array : ndarray Z) (values values' : list Z) :
  values ≠ [] → (∀ x, x ∈ values ↔ x ∈ values') →
  where_list array values = where_list array values'.
Proof.
  intros _ Hset. rewrite !where_list_unfold. do 2 f_equal.
  apply list_fmap_ext. intros _ x _. apply bool_decide_ext, Hset.
Qed.

Lemma where_list_values_set_witness :
  [0; 5]%Z ≠ [] ∧ (∀ x, x ∈ [0; 5]%Z ↔ x ∈ [5; 0; 5]%Z)
  ∧ where_list example_where [0; 5]%Z = where_list example_where [5; 0; 5]%Z.
Proof.
  assert (∀ x, x ∈ [0; 5]%Z ↔ x ∈ [5; 0; 5]%Z) as Hset.
  { intros x. rewrite !elem_of_cons, !elem_of_nil. tauto. }
  split; [done|]. split; [exact Hset|].
  apply (where_list_values_set example_where [0; 5]%Z [5; 0; 5]%Z);
    [done | exact Hset].
Defined.



(** ** array_difference: errors, and what the result depends on *)

Lemma py_set_raises (items : list pyobj) (e : exn) :
  py_set items = Raise e → e = TypeError.
Proof.
  induction items as [|o items IH]; simpl; [done|].
  destruct o as [x|row]; simpl; [|by intros [= <-]].
  destruct (py_set items); simpl; [done|]. intros [= <-]. by apply IH.
Qed.

Lemma py_set_iter_Ok (a : pyarray) :
  (∃ s, py_set (iter a) = Ok s) ∨ (∃ r rs, a = Array2 (r :: rs)).
Proof.
  destruct a as [elems|[|r rs]]; simpl.
  - left. rewrite py_set_scalars. eauto.
  - left. eauto.
  - right. eauto.
Qed.

(** X10. The only exception is TypeError, and it is raised exactly when
    [array] or [subarray] is a 2-D array with at least one row. *)
Theorem array_difference_raises (array subarray : pyarray) :
  (array_difference array subarray = Raise TypeError
   ↔ (∃ r rs, array = Array2 (r :: rs)) ∨ (∃ r rs, subarray = Array2 (r :: rs)))
  ∧ ∀ e, array_difference array subarray = Raise e → e = TypeError.
Proof.
  split.
  - unfold array_difference. split.
    + destruct (py_set_iter_Ok array) as [[s Hs]|?]; [|by left].
      destruct (py_set_iter_Ok subarray) as [[s' Hs']|?]; [|by right].
      rewrite Hs. simpl. rewrite Hs'. simpl. done.
    + intros [(r & rs & ->)|(r & rs & ->)]; [done|].
      destruct (py_set (iter array)) as [s|e] eqn:Hs; simpl; [done|].
      by apply py_set_raises in Hs as ->.
  - intros e. unfold array_difference.
    destruct (py_set (iter array)) as [s|e1] eqn:Hs; simpl;
      [|intros [= <-]; by apply py_set_raises in Hs].
    destruct (py_set (iter subarray)) as [s'|e2] eqn:Hs'; simpl;
      [done | intros [= <-]; by apply py_set_raises in Hs'].
Qed.

(** X11. On 1-D arrays the result is empty exactly when every element of
    [array] occurs in [subarray]. *)
Theorem array_difference_empty (a b : list Z) :
  array_difference (Array1 a) (Array1 b) = Ok [] ↔ ∀ x, x ∈ a → x ∈ b.
Proof.
  unfold array_difference. simpl. rewrite !py_set_scalars. simpl.
  split.
  - intros [= Hel] x Ha. apply elements_empty_inv in Hel.
    destruct (decide (x ∈ b)) as [|Hb]; [done|]. exfalso.
    assert (x ∈ (list_to_set a ∖ list_to_set b : gset Z)) as Hx.
    { rewrite elem_of_difference, !elem_of_list_to_set. done. }
    rewrite Hel in Hx. by apply elem_of_empty in Hx.
  - intros Hsub. f_equal. apply elements_empty_iff.
    apply elem_of_equiv_empty. intros x.
    rewrite elem_of_difference, !elem_of_list_to_set. naive_solver.
Qed.

(** X12. On 1-D arrays only the sets of elements matter: arrays with the
    same elements, in any order and with any repetitions, give the same
    result up to the order of its elements. *)
Theorem array_difference_content (a a' b b' : list Z) :
  (∀ x, x ∈ a ↔ x ∈ a') → (∀ x, x ∈ b ↔ x ∈ b') →
  ∃ out out',
    array_difference (Array1 a) (Array1 b) = Ok out
    ∧ array_difference (Array1 a') (Array1 b') = Ok out'
    ∧ out ≡ₚ out'.
Proof.
  intros Ha Hb. unfold array_difference. simpl. rewrite !py_set_scalars. simpl.
  eexists _, _. split; [done|]. split; [done|].
  assert ((list_to_set a ∖ list_to_set b : gset Z)
          = list_to_set a' ∖ list_to_set b') as ->; [|done].
  apply set_eq. intros x.
  rewrite !elem_of_difference, !elem_of_list_to_set. by rewrite Ha, Hb.
Qed.

Lemma array_difference_content_witness :
  (∀ x, x ∈ [3; 1; 2]%Z ↔ x ∈ [1; 2; 3; 1]%Z)
  ∧ (∀ x, x ∈ [1; 7]%Z ↔ x ∈ [7; 1]%Z)
  ∧ ∃ out out',
      array_difference (Array1 [3; 1; 2]%Z) (Array1 [1; 7]%Z) = Ok out
      ∧ array_difference (Array1 [1; 2; 3; 1]%Z) (Array1 [7; 1]%Z) = Ok out'
      ∧ out ≡ₚ out'.
Proof.
  assert (∀ x, x ∈ [3; 1; 2]%Z ↔ x ∈ [1; 2; 3; 1]%Z) as Ha.
  { intros x. rewrite !elem_of_cons, !elem_of_nil. tauto. }
  assert (∀ x, x ∈ [1; 7]%Z ↔ x ∈ [7; 1]%Z) as Hb.
  { intros x. rewrite !elem_of_cons, !elem_of_nil. tauto. }
  split; [exact Ha|]. split; [exact Hb|].
  apply (array_difference_content [3; 1; 2]%Z [1; 2; 3; 1]%Z [1; 7]%Z [7; 1]%Z);
    [exact Ha | exact Hb].
Defined.

(** ** weighted_percentile: every outcome *)

Lemma take_idx_fmap {A B} (f : A → B) (a : list A) idx xs :
  take_idx a idx = Ok xs → take_idx (f <$> a) idx = Ok (f <$> xs).
Proof.
  rewrite !take_idx_Ok. induction 1 as [|i x idx xs Hi _ IH].
  - constructor.
  - rewrite fmap_cons. constructor; [|done]. by rewrite list_lookup_fmap, Hi.
Qed.

Lemma np_interp_Ok (x xp fp : list Q) :
  length xp ≠ 0 → length fp = length xp →
  np_interp x xp fp = Ok (interp1 xp fp <$> x).
Proof.
  intros Hne Hlen. unfold np_interp.
  rewrite bool_decide_false by done. by rewrite bool_decide_false by auto.
Qed.

Lemma np_argsort_take_long (values w : list Q) :
  length values ≤ length w →
  ∃ w', take_idx w (np_argsort values) = Ok w' ∧ length w' = length values.
Proof.
  intros Hlen.
  destruct (np_argsort_take_weights values (take (length values) w))
    as (w' & Hw' & Hperm); [rewrite length_take; lia|].
  rewrite (take_idx_take w) in Hw' by apply np_argsort_bounds.
  exists w'. split; [done|].
  rewrite (Permutation_length Hperm), length_take. lia.
Qed.

(** X13. With percentiles in [0, 100] the call has one of three outcomes,
    decided by the lengths alone ([w] stands for the weights, by default as
    many ones as there are values).  No values, or [values_sorted] with
    weights of another length: ValueError.  Values not declared sorted and
    too few weights: IndexError.  Otherwise a result, with one entry per
    requested percentile. *)
Theorem weighted_percentile_outcome (values percentiles : list Q)
    (sample_weight : option (list Q)) (values_sorted : bool) :
  Forall (fun p => 0 <= p ∧ p <= 100)%Q percentiles →
  let w := default (np_ones (length values)) sample_weight in
  (values = [] ∨ (values_sorted = true ∧ length w ≠ length values) →
     weighted_percentile values percentiles sample_weight values_sorted
     = Raise ValueError)
  ∧ (values_sorted = false ∧ length w < length values →
       weighted_percentile values percentiles sample_weight values_sorted
       = Raise IndexError)
  ∧ (values ≠ []
     ∧ (if values_sorted then length w = length values
        else length values ≤ length w) →
       ∃ r,
         weighted_percentile values percentiles sample_weight values_sorted = Ok r
         ∧ length r = length percentiles).
Proof.
  intros Hok%percentiles_ok_true w. unfold weighted_percentile. fold w.
  rewrite Hok. simpl. split; [|split].
  - intros [->|[-> Hne]]; simpl.
    + destruct values_sorted; simpl.
      * unfold np_interp. rewrite weighted_ranks_length.
        case_bool_decide; [done|]. rewrite bool_decide_true; [done|].
        simpl. lia.
      * done.
    + unfold np_interp. rewrite weighted_ranks_length.
      case_bool_decide; [done|]. by rewrite bool_decide_true by done.
  - intros [-> Hlt]. simpl. rewrite np_argsort_take. simpl.
    rewrite (take_idx_out_of_range w _ (length w)); [done| |].
    + unfold np_argsort. rewrite argsort_perm. apply elem_of_seq. lia.
    + apply lookup_ge_None. lia.
  - intros [Hval Hlen].
    assert (length values ≠ 0) as Hn by by destruct values.
    destruct values_sorted; simpl.
    + rewrite np_interp_Ok; [|rewrite weighted_ranks_length; lia
                            |by rewrite weighted_ranks_length].
      eexists. split; [done|]. by rewrite length_fmap.
    + rewrite np_argsort_take. simpl.
      destruct (np_argsort_take_long values w Hlen) as (w' & -> & Hw'). simpl.
      rewrite np_interp_Ok; [|rewrite weighted_ranks_length; lia
                            |by rewrite weighted_ranks_length, np_sort_length].
      eexists. split; [done|]. by rewrite length_fmap.
Qed.

Lemma weighted_percentile_outcome_witness :
  Forall (fun p => 0 <= p ∧ p <= 100)%Q example_percentiles
  ∧ (example_shuffled ≠ []
     ∧ length example_shuffled ≤ length (default (np_ones (length example_shuffled))
                                           (Some example_weights)) →
       ∃ r,
         weighted_percentile example_shuffled example_percentiles
           (Some example_weights) false = Ok r
         ∧ length r = length example_percentiles).
Proof.
  split; [exact example_percentiles_ok|].
  apply (weighted_percentile_outcome example_shuffled example_percentiles
           (Some example_weights) false).
  exact example_percentiles_ok.
Defined.

(** ** weighted_percentile: where the results lie *)

Section results.
Local Open Scope Q_scope.


Lemma last_zip (xs fs : list Q) (x0 f0 : Q) :
  length xs = length fs →
  List.last (zip xs fs) (x0, f0) = (List.last xs x0, List.last fs f0).
Proof.
  revert fs x0 f0. induction xs as [|x xs IH]; intros [|f fs] x0 f0 Hlen; try done.
  change (zip (x :: xs) (f :: fs)) with ((x, f) :: zip xs fs).
  rewrite !last_cons. apply IH. by injection Hlen.
Qed.


Lemma interp1_cons (xs fs : list Q) (x0 f0 x : Q) :
  length xs = length fs →
  interp1 (x0 :: xs) (f0 :: fs) x
  = if negb (Qle_bool x (List.last xs x0)) then List.last fs f0
    else if negb (Qle_bool x0 x) then f0
    else interp_search x x0 f0 (zip xs fs).
Proof.
  intros Hlen.
  change (interp1 (x0 :: xs) (f0 :: fs) x)
    with (let '(xn, fn) := List.last (zip xs fs) (x0, f0) in
          if negb (Qle_bool x xn) then fn
          else if negb (Qle_bool x0 x) then f0
          else interp_search x x0 f0 (zip xs fs)).
  by rewrite last_zip.
Qed.


End results.




Section extremes.
Local Open Scope Q_scope.





End extremes.



(** ** weighted_percentile: the scale of the weights *)

Section scale.
Local Open Scope Q_scope.

Lemma Qle_bool_Qeq (a a' b b' : Q) :
  a == a' → b == b' → Qle_bool a b = Qle_bool a' b'.
Proof.
  intros Ha Hb. apply eq_true_iff_eq. rewrite !Qle_bool_iff. by rewrite Ha, Hb.
Qed.

Lemma Qeq_bool_Qeq (a a' b b' : Q) :
  a == a' → b == b' → Qeq_bool a b = Qeq_bool a' b'.
Proof.
  intros Ha Hb. apply eq_true_iff_eq. rewrite !Qeq_bool_iff. by rewrite Ha, Hb.
Qed.

Lemma interp_search_Qeq (x x0 x0' f0 : Q) (xs xs' fs : list Q) :
  x0 == x0' → Forall2 Qeq xs xs' →
  interp_search x x0 f0 (zip xs fs) == interp_search x x0' f0 (zip xs' fs).
Proof.
  intros Hx0 Hxs. revert x0 x0' f0 fs Hx0.
  induction Hxs as [|x1 x1' xs xs' Hx1 _ IH]; intros x0 x0' f0 fs Hx0.
  - reflexivity.
  - destruct fs as [|f1 fs]; [reflexivity|].
    change (zip (x1 :: xs) (f1 :: fs)) with ((x1, f1) :: zip xs fs).
    change (zip (x1' :: xs') (f1 :: fs)) with ((x1', f1) :: zip xs' fs).
    simpl interp_search.
    rewrite (Qle_bool_Qeq x1 x1' x x) by done.
    rewrite (Qeq_bool_Qeq x0 x0' x x) by done.
    destruct (Qle_bool x1' x); [by apply IH|].
    destruct (Qeq_bool x0' x); [reflexivity|].
    by rewrite Hx0, Hx1.
Qed.

Lemma last_Qeq (xs xs' : list Q) (x0 x0' : Q) :
  x0 == x0' → Forall2 Qeq xs xs' → List.last xs x0 == List.last xs' x0'.
Proof.
  intros Hx0 Hxs. revert x0 x0' Hx0.
  induction Hxs as [|x1 x1' xs xs' Hx1 _ IH]; intros x0 x0' Hx0; [done|].
  rewrite !last_cons. by apply IH.
Qed.

(** [np.interp] sees its sample abscissas as numbers only. *)
Lemma interp1_Qeq (xp xp' fp : list Q) (x : Q) :
  length xp = length fp → Forall2 Qeq xp xp' →
  interp1 xp fp x == interp1 xp' fp x.
Proof.
  intros Hlen Hxp. destruct Hxp as [|x0 x0' xs xs' Hx0 Hxs].
  - reflexivity.
  - destruct fp as [|f0 fs]; [done|].
    assert (length xs = length fs) as Hl by by injection Hlen.
    assert (length xs' = length fs) as Hl'
      by by rewrite <-(Forall2_length _ _ _ Hxs).
    rewrite !interp1_cons by done.
    rewrite (Qle_bool_Qeq x x (List.last xs x0) (List.last xs' x0'));
      [|reflexivity | by apply last_Qeq].
    rewrite (Qle_bool_Qeq x0 x0' x x) by done.
    destruct (Qle_bool x (List.last xs' x0')); simpl; [|reflexivity].
    destruct (Qle_bool x0' x); simpl; [|reflexivity].
    by apply interp_search_Qeq.
Qed.

Lemma np_sum_scale (c : Q) (w : list Q) :
  np_sum (Qmult c <$> w) == c * np_sum w.
Proof.
  unfold np_sum. induction w as [|x w IH]; simpl; [ring|].
  rewrite IH. ring.
Qed.

Lemma ranks_from_scale (c total total' acc acc' : Q) (w : list Q) :
  ¬ c == 0 → ¬ total == 0 → total' == c * total → acc' == c * acc →
  Forall2 Qeq
    (zip_with (fun s x => 100 * (s - (1 # 2) * x) / total')
       (cumsum_from acc' (Qmult c <$> w)) (Qmult c <$> w))
    (zip_with (fun s x => 100 * (s - (1 # 2) * x) / total)
       (cumsum_from acc w) w).
Proof.
  intros Hc Ht Ht'. revert acc acc'.
  induction w as [|x w IH]; intros acc acc' Hacc; [constructor|].
  rewrite fmap_cons. simpl. constructor.
  - rewrite Ht', Hacc. field. done.
  - apply IH. rewrite Hacc. ring.
Qed.

Lemma weighted_ranks_scale (c : Q) (w : list Q) :
  0 < c → 0 < np_sum w →
  Forall2 Qeq (weighted_ranks (Qmult c <$> w)) (weighted_ranks w).
Proof.
  intros Hc Hs. unfold weighted_ranks, np_cumsum.
  apply (ranks_from_scale c); [lra | lra | apply np_sum_scale | ring].
Qed.
End scale.

(** The weights reach the interpolation through one permutation, which the
    values and the flag decide. *)
Lemma weighted_percentile_sorter (values percentiles : list Q)
    (values_sorted : bool) :
  values ≠ [] →
  (values_sorted = true → Sorted Qle values) →
  Forall (fun p => 0 <= p ∧ p <= 100)%Q percentiles →
  ∃ sorter,
    ∀ w, length w = length values →
      ∃ w',
        take_idx w sorter = Ok w' ∧ w' ≡ₚ w
        ∧ weighted_percentile values percentiles (Some w) values_sorted
          = Ok (interp1 (weighted_ranks w') (np_sort values) <$> percentiles).
Proof.
  intros Hval Hsorted Hok%percentiles_ok_true.
  assert (length values ≠ 0) as Hn by by destruct values.
  exists (if values_sorted then seq 0 (length values) else np_argsort values).
  intros w Hlen. unfold weighted_percentile. rewrite Hok. simpl.
  destruct values_sorted; simpl.
  - exists w. rewrite <-Hlen, take_idx_seq. split; [done|]. split; [done|].
    rewrite np_sort_sorted by auto.
    apply np_interp_Ok; rewrite weighted_ranks_length; [lia | done].
  - rewrite np_argsort_take. simpl.
    destruct (np_argsort_take_weights values w Hlen) as (w' & Hw' & Hperm).
    exists w'. split; [done|]. split; [done|]. rewrite Hw'. simpl.
    pose proof (Permutation_length Hperm) as Hl.
    apply np_interp_Ok; rewrite weighted_ranks_length, ?np_sort_length; lia.
Qed.

(** X16. Multiplying all the weights by the same positive factor does not
    change the results. *)
Theorem weighted_percentile_scale (values percentiles w : list Q)
    (values_sorted : bool) (c : Q) :
  (0 < c)%Q →
  values ≠ [] →
  weights_ok values (Some w) →
  (values_sorted = true → Sorted Qle values) →
  Forall (fun p => 0 <= p ∧ p <= 100)%Q percentiles →
  ∃ r r',
    weighted_percentile values percentiles (Some w) values_sorted = Ok r
    ∧ weighted_percentile values percentiles (Some (Qmult c <$> w)) values_sorted
      = Ok r'
    ∧ Forall2 Qeq r' r.
Proof.
  intros Hc Hval (Hlen & _ & Hpos) Hsorted Hok.
  destruct (weighted_percentile_sorter values percentiles values_sorted)
    as [sorter Hsorter]; try done.
  destruct (Hsorter w Hlen) as (w' & Hw' & Hperm & ->).
  destruct (Hsorter (Qmult c <$> w)) as (w'' & Hw'' & _ & ->);
    [by rewrite length_fmap|].
  rewrite (take_idx_fmap (Qmult c) w sorter w' Hw') in Hw''.
  injection Hw'' as <-.
  eexists _, _. split; [done|]. split; [done|].
  apply Forall2_fmap, Forall_Forall2_diag, Forall_forall. intros p _.
  apply interp1_Qeq.
  - rewrite weighted_ranks_length, length_fmap, np_sort_length.
    by rewrite (Permutation_length Hperm).
  - apply weighted_ranks_scale; [done|].
    by rewrite (np_sum_Permutation _ _ Hperm).
Qed.

Lemma weighted_percentile_scale_witness :
  (0 < 3)%Q
  ∧ example_shuffled ≠ []
  ∧ weights_ok example_shuffled (Some [1; 0; 2; 1; 3]%Q)
  ∧ Forall (fun p => 0 <= p ∧ p <= 100)%Q example_percentiles
  ∧ ∃ r r',
      weighted_percentile example_shuffled example_percentiles
        (Some [1; 0; 2; 1; 3]%Q) false = Ok r
      ∧ weighted_percentile example_shuffled example_percentiles
          (Some (Qmult 3 <$> [1; 0; 2; 1; 3]%Q)) false = Ok r'
      ∧ Forall2 Qeq r' r.
Proof.
  split; [done|]. split; [done|]. split; [exact example_shuffled_weights_ok|].
  split; [exact example_percentiles_ok|].
  apply (weighted_percentile_scale example_shuffled example_percentiles
           [1; 0; 2; 1; 3]%Q false 3).
  - done.
  - done.
  - exact example_shuffled_weights_ok.
  - done.
  - exact example_percentiles_ok.
Defined.

(** ** weighted_percentile: sorting beforehand *)

Lemma np_argsort_take_ones (values : list Q) :
  take_idx (np_ones (length values)) (np_argsort values)
  = Ok (np_ones (length values)).
Proof.
  destruct (np_argsort_take_weights values (np_ones (length values)))
    as (w' & -> & Hperm); [apply length_replicate|].
  f_equal. symmetry. apply replicate_Permutation. by symmetry.
Qed.

(** X17. Without weights, letting the function sort the values is the same
    as sorting them beforehand and passing [values_sorted=True], whatever the
    arguments (errors included). *)
Theorem weighted_percentile_presorted (values percentiles : list Q) :
  weighted_percentile values percentiles None false
  = weighted_percentile (np_sort values) percentiles None true.
Proof.
  unfold weighted_percentile. simpl default.
  destruct (negb (percentiles_ok percentiles)); [done|].
  simpl negb. cbv iota.
  rewrite np_argsort_take. simpl.
  rewrite np_argsort_take_ones, np_sort_length. done.
Qed.
